(** * torch_sparse/storage.py: the sparse storage, its caches and its transforms

    A shallow embedding of [SparseStorage], [cached_property] and [no_cache],
    followed by the properties of the storage that the specification states.

    Conventions of the embedding.
    - A one-dimensional [torch.long] tensor is a [list Z]; every arithmetic
      operation on tensor data wraps to 64 bits ([wrap64]).  Python integers
      (sizes, differences of sizes) are unbounded [Z]; one that is multiplied
      with a tensor is converted to a 64-bit scalar first, which raises
      [OverflowError] when it does not fit.
    - The [index] tensor of shape (2, nnz) is the list of its columns, a
      [list (Z * Z)] of (row, col) pairs; [index[0]] and [index[1]] are the
      projections [row] and [col].  The assertions of [__init__] on the rank
      and the dtype of its tensors hold by typing.
    - All tensors live on the CPU: the device assertions hold, [is_cuda] is
      false and the pointer primitive is the one of [rowptr_cpu].  A call of
      [contiguous()] changes the memory layout only and has no counterpart.
    - A raised exception is a [Raise e]; code that reads or writes attributes
      of the instance or the process-wide cache flag runs in the monad [M],
      whose state survives an exception as it does in Python. *)

From stdpp Require Import base tactics option numbers list sorting gmap strings.

Local Open Scope Z_scope.

(** ** Exceptions *)

Inductive exn : Set :=
| AssertionError
| AttributeError
| IndexError
| OverflowError
| RuntimeError
| TypeError.

Inductive result (A : Type) : Type :=
| Ok (a : A)
| Raise (e : exn).

Arguments Ok {A} a.
Arguments Raise {A} e.

#[global] Instance result_ret : MRet result := @Ok.

#[global] Instance result_bind : MBind result :=
  λ A B f m, match m with Ok a => f a | Raise e => Raise e end.

(** [assert b] *)
Definition assert (b : bool) : result unit :=
  if b then Ok () else Raise AssertionError.

(** [func(src) if src is not None else src] *)
Definition optional {A B : Type} (func : A → B) (src : option A) : option B :=
  match src with Some x => Some (func x) | None => None end.

(** An [if src is not None: assert ...] block. *)
Definition assert_optional {A : Type} (src : option A) (check : A → bool) : result unit :=
  match src with Some x => assert (check x) | None => Ok () end.

(** ** 64-bit tensor arithmetic *)

Definition wrap64 (z : Z) : Z := (z + 2 ^ 63) `mod` 2 ^ 64 - 2 ^ 63.
Definition add64 (a b : Z) : Z := wrap64 (a + b).
Definition sub64 (a b : Z) : Z := wrap64 (a - b).
Definition mul64 (a b : Z) : Z := wrap64 (a * b).

(** A Python integer that a 64-bit scalar can hold. *)
Definition int64 (n : Z) : Prop := - 2 ^ 63 ≤ n < 2 ^ 63.

#[global] Instance int64_dec (n : Z) : Decision (int64 n).
Proof. unfold int64. apply _. Defined.

(** [n * t] for a Python integer [n] and a long tensor [t]: [n] becomes a
    64-bit scalar, and the conversion raises [OverflowError] when [n] does
    not fit; the products wrap. *)
Definition scalar_mul (n : Z) (t : list Z) : result (list Z) :=
  if decide (int64 n) then Ok (mul64 n <$> t) else Raise OverflowError.
(** [a + b] and [a - b] on long tensors of one shape. *)
Definition tensor_add (a b : list Z) : list Z := zip_with add64 a b.
Definition tensor_sub (a b : list Z) : list Z := zip_with sub64 a b.
(** [t - n] for a long tensor [t] and a Python integer [n]. *)
Definition tensor_sub_scalar (t : list Z) (n : Z) : list Z := (λ x, sub64 x n) <$> t.

(** Python's slice [l[:k]]: the first [k] elements, or all but the last
    [-k] when [k] is negative.  Note that [l[:-0]] is [l[:0]], the empty
    slice. *)
Definition slice_to {A : Type} (k : Z) (l : list A) : list A :=
  if decide (0 ≤ k) then take (Z.to_nat k) l
  else take (length l - Z.to_nat (- k))%nat l.

(** Python's slice [l[k:]] for a non-negative [k]. *)
Definition slice_from {A : Type} (k : nat) (l : list A) : list A := drop k l.

(** ** The tensor library *)

Module torch.

(** [torch.cat([a, b], dim=0)] *)
Definition cat {A : Type} (a b : list A) : list A := a ++ b.

(** [a < b] and [a > b], elementwise.  A one-element [b] against an empty
    [a] broadcasts to the empty tensor, which is what zipping gives. *)
Definition lt (a b : list Z) : list bool := zip_with (λ x y, bool_decide (x < y)) a b.
Definition gt (a b : list Z) : list bool := zip_with (λ x y, bool_decide (x > y)) a b.

(** [mask.any()] and [mask.all()] *)
Definition any (mask : list bool) : bool := existsb id mask.
Definition all (mask : list bool) : bool := forallb id mask.

(** [t.new_zeros(n)] and [t.new_full((n, ), x)] *)
Definition new_zeros (n : Z) : list Z := replicate (Z.to_nat n) 0.
Definition new_full (n : Z) (x : Z) : list Z := replicate (Z.to_nat n) x.

(** [torch.full(size, fill_value)]: [fill_value] is a required argument,
    a call that leaves it out raises [TypeError]. *)
Definition full {A : Type} (n : Z) (fill_value : option A) : result (list A) :=
  match fill_value with
  | Some x => Ok (replicate (Z.to_nat n) x)
  | None => Raise TypeError
  end.

(** [bool(t)] of a tensor, the test behind [if t:]: defined for exactly
    one element, [RuntimeError] otherwise. *)
Definition is_nonzero (t : list Z) : result bool :=
  match t with
  | [x] => Ok (bool_decide (x ≠ 0))
  | _ => Raise RuntimeError
  end.

(** [t.max(dim=-1)[0]] for one row [t] of the index, the maximum along
    the last dimension; [IndexError] when that dimension has size zero. *)
Definition max (t : list Z) : result Z :=
  match t with
  | [] => Raise IndexError
  | x :: t' => Ok (foldr Z.max x t')
  end.

(** [x[i]] for one integer position of a tensor index: a negative [i]
    counts from the end, a position outside the tensor is an [IndexError]. *)
Definition getitem {A : Type} (x : list A) (i : Z) : result A :=
  let j := if decide (i < 0) then i + Z.of_nat (length x) else i in
  if decide (0 ≤ j) then
    match x !! Z.to_nat j with
    | Some a => Ok a
    | None => Raise IndexError
    end
  else Raise IndexError.

(** [x[perm]] (and [x[:, perm]] on the index) for a long tensor [perm]. *)
Fixpoint index_select {A : Type} (x : list A) (perm : list Z) : result (list A) :=
  match perm with
  | [] => Ok []
  | i :: perm' =>
      a ← getitem x i;
      rest ← index_select x perm';
      Ok (a :: rest)
  end.

(** [x[mask]] (and [x[:, mask]]) for a boolean mask of the length of [x]. *)
Fixpoint masked_select {A : Type} (x : list A) (mask : list bool) : list A :=
  match x, mask with
  | a :: x', b :: mask' =>
      if b then a :: masked_select x' mask' else masked_select x' mask'
  | _, _ => []
  end.

(** [t.cumsum(0)], the running sum. *)
Fixpoint cumsum_from (acc : Z) (t : list Z) : list Z :=
  match t with
  | [] => []
  | x :: t' => add64 acc x :: cumsum_from (add64 acc x) t'
  end.

Definition cumsum (t : list Z) : list Z := cumsum_from 0 t.

(** A boolean mask read as a long tensor, as [mask.cumsum(0)] does. *)
Definition to_long (mask : list bool) : list Z := (λ b : bool, if b then 1 else 0) <$> mask.

(** The order of [argsort]: by key, ties by position. *)
Definition key_le : relation (Z * nat) :=
  λ a b, a.1 < b.1 ∨ (a.1 = b.1 ∧ (a.2 ≤ b.2)%nat).

#[global] Instance key_le_dec : RelDecision key_le.
Proof. intros a b. unfold key_le. apply _. Defined.

(** Modelled from the spec: the backend's stable argsort over an integer
    key sequence.  It returns the positions of [keys] ordered by key, equal
    keys in their original order. *)
Definition argsort (keys : list Z) : list Z :=
  (λ p : Z * nat, Z.of_nat p.2)
    <$> merge_sort key_le (zip keys (seq 0 (length keys))).

End torch.

Module torch_scatter.

(** Modelled from the spec: the segmented-increment reduction.
    [scatter_add(src, index, dim_size)] adds every [src[i]] into bucket
    [index[i]] of [dim_size] buckets; an index outside the buckets is an
    error of the backend. *)
Definition scatter_add (src index : list Z) (dim_size : Z) : result (list Z) :=
  if forallb (λ j, bool_decide (0 ≤ j < dim_size)) index then
    Ok ((λ j : nat,
           wrap64 (foldr Z.add 0
             (filter (λ p : Z * Z, p.2 = Z.of_nat j) (zip src index)).*1))
          <$> seq 0 (Z.to_nat dim_size))
  else Raise RuntimeError.

(** The values of the contiguous runs of equal group ids: [cur] collects
    the run of id [cur_id] that is open. *)
Fixpoint segments {V : Type} (cur_id : Z) (cur : list V)
    (idx : list Z) (value : list V) : list (list V) :=
  match idx, value with
  | i :: idx', v :: value' =>
      if decide (i = cur_id) then segments cur_id (cur ++ [v]) idx' value'
      else cur :: segments i [v] idx' value'
  | _, _ => [cur]
  end.

(** Modelled from the spec: the segmented reduction, called by [coalesce]
    as [segment_csr(idx, value, reduce=reduce)] with the group ids first.
    It groups the values by contiguous runs sharing a group id and produces
    one output per group; [reduce] is the reduction operator that the
    string of that name selects, as a function of one group's values. *)
Definition segment_csr {V : Type} (idx : list Z) (value : list V)
    (reduce : list V → V) : list V :=
  match idx, value with
  | i :: idx', v :: value' => reduce <$> segments i [v] idx' value'
  | _, _ => []
  end.

End torch_scatter.

Module rowptr_cpu.

(** Modelled from the spec: the pointer-construction primitive of the
    extension module [rowptr_cpu].  Given the sorted bucket ids [row] and
    the bucket count [size] it produces the offset array of length
    [size + 1]: entry [i] is the number of ids below [i], the position at
    which bucket [i] starts. *)
Definition rowptr (row : list Z) (size : Z) : list Z :=
  (λ i : nat, Z.of_nat (length (filter (λ r, r < Z.of_nat i) row)))
    <$> seq 0 (Z.to_nat (size + 1)).

End rowptr_cpu.

(** ** The layout tag *)

Definition layouts : list string := ["coo"; "csr"; "csc"]%string.

(** [get_layout]: the default is [coo] (with a warning, which has no
    effect on the result). *)
Definition get_layout (layout : option string) : result string :=
  let layout := default "coo"%string layout in
  _ ← assert (bool_decide (layout ∈ layouts));
  Ok layout.

(** ** The storage *)

Inductive cache_key : Set :=
| Krowcount | Krowptr | Kcolcount | Kcolptr | Kcsr2csc | Kcsc2csr.

#[global] Instance cache_key_eq_dec : EqDecision cache_key.
Proof. solve_decision. Defined.

(** [SparseStorage.cache_keys] *)
Definition cache_keys : list cache_key :=
  [Krowcount; Krowptr; Kcolcount; Kcolptr; Kcsr2csc; Kcsc2csr].

Section storage.

Context {V : Type}.

(** The attributes that [__init__] sets. *)
Record SparseStorage : Type := mkSparseStorage {
  _index : list (Z * Z);
  _value : option (list V);
  _sparse_size : Z * Z;
  _rowcount : option (list Z);
  _rowptr : option (list Z);
  _colcount : option (list Z);
  _colptr : option (list Z);
  _csr2csc : option (list Z);
  _csc2csr : option (list Z)
}.

(** [index[0]] and [index[1]] *)
Definition row_of (index : list (Z * Z)) : list Z := index.*1.
Definition col_of (index : list (Z * Z)) : list Z := index.*2.

(** [index.max(dim=-1)[0] + 1], the default [sparse_size]. *)
Definition default_sparse_size (index : list (Z * Z)) : result (Z * Z) :=
  r ← torch.max (row_of index);
  c ← torch.max (col_of index);
  Ok (add64 r 1, add64 c 1).

(** [SparseStorage.__init__] *)
Definition __init__ (index : list (Z * Z)) (value : option (list V))
    (sparse_size : option (Z * Z))
    (rowcount rowptr colcount colptr csr2csc csc2csr : option (list Z))
    (is_sorted : bool) : result SparseStorage :=
  _ ← assert_optional value (λ v, bool_decide (length v = length index));
  sparse_size ← match sparse_size with
                | Some sz => Ok sz
                | None => default_sparse_size index
                end;
  _ ← assert_optional rowcount
        (λ t, bool_decide (Z.of_nat (length t) = sparse_size.1));
  _ ← assert_optional rowptr
        (λ t, bool_decide (Z.of_nat (length t) - 1 = sparse_size.1));
  _ ← assert_optional colcount
        (λ t, bool_decide (Z.of_nat (length t) = sparse_size.2));
  _ ← assert_optional colptr
        (λ t, bool_decide (Z.of_nat (length t) - 1 = sparse_size.2));
  _ ← assert_optional csr2csc (λ t, bool_decide (length t = length index));
  _ ← assert_optional csc2csr (λ t, bool_decide (length t = length index));
  '(index, value, csr2csc, csc2csr) ←
    (if negb is_sorted then
       scaled ← scalar_mul sparse_size.2 (row_of index);
       let idx := tensor_add scaled (col_of index) in
       if torch.any (torch.lt idx (torch.cat (torch.new_zeros 1) (slice_to (-1) idx))) then
         let perm := torch.argsort idx in
         index ← torch.index_select index perm;
         value ← match value with
                 | None => Ok None
                 | Some v => v ← torch.index_select v perm; Ok (Some v)
                 end;
         Ok (index, value, None, None)
       else Ok (index, value, csr2csc, csc2csr)
     else Ok (index, value, csr2csc, csc2csr));
  Ok {| _index := index; _value := value; _sparse_size := sparse_size;
        _rowcount := rowcount; _rowptr := rowptr;
        _colcount := colcount; _colptr := colptr;
        _csr2csc := csr2csc; _csc2csr := csc2csr |}.

(** The plain properties and predicates. *)
Definition index (self : SparseStorage) : list (Z * Z) := _index self.
Definition row (self : SparseStorage) : list Z := row_of (_index self).
Definition col (self : SparseStorage) : list Z := col_of (_index self).
Definition has_value (self : SparseStorage) : bool := bool_decide (is_Some (_value self)).
Definition value (self : SparseStorage) : option (list V) := _value self.

(** [sparse_size()] and [sparse_size(dim)] *)
Definition sparse_size (self : SparseStorage) : Z * Z := _sparse_size self.
Definition sparse_size_dim (self : SparseStorage) (dim : nat) : Z :=
  match dim with O => (_sparse_size self).1 | _ => (_sparse_size self).2 end.

Definition has_rowcount (self : SparseStorage) : bool := bool_decide (is_Some (_rowcount self)).
Definition has_rowptr (self : SparseStorage) : bool := bool_decide (is_Some (_rowptr self)).
Definition has_colcount (self : SparseStorage) : bool := bool_decide (is_Some (_colcount self)).
Definition has_colptr (self : SparseStorage) : bool := bool_decide (is_Some (_colptr self)).
Definition has_csr2csc (self : SparseStorage) : bool := bool_decide (is_Some (_csr2csc self)).
Definition has_csc2csr (self : SparseStorage) : bool := bool_decide (is_Some (_csc2csr self)).

(** [getattr(obj, f'_{key}', None)] and [setattr(obj, f'_{key}', value)] *)
Definition getattr (key : cache_key) (obj : SparseStorage) : option (list Z) :=
  match key with
  | Krowcount => _rowcount obj
  | Krowptr => _rowptr obj
  | Kcolcount => _colcount obj
  | Kcolptr => _colptr obj
  | Kcsr2csc => _csr2csc obj
  | Kcsc2csr => _csc2csr obj
  end.

Definition setattr (key : cache_key) (v : option (list Z)) (obj : SparseStorage) : SparseStorage :=
  {| _index := _index obj; _value := _value obj; _sparse_size := _sparse_size obj;
     _rowcount := if decide (key = Krowcount) then v else _rowcount obj;
     _rowptr := if decide (key = Krowptr) then v else _rowptr obj;
     _colcount := if decide (key = Kcolcount) then v else _colcount obj;
     _colptr := if decide (key = Kcolptr) then v else _colptr obj;
     _csr2csc := if decide (key = Kcsr2csc) then v else _csr2csc obj;
     _csc2csr := if decide (key = Kcsc2csr) then v else _csc2csr obj |}.

Definition set__value (v : option (list V)) (obj : SparseStorage) : SparseStorage :=
  {| _index := _index obj; _value := v; _sparse_size := _sparse_size obj;
     _rowcount := _rowcount obj; _rowptr := _rowptr obj;
     _colcount := _colcount obj; _colptr := _colptr obj;
     _csr2csc := _csr2csc obj; _csc2csr := _csc2csr obj |}.

End storage.

Arguments SparseStorage : clear implicits.

(** ** The process state and the monad of attribute access *)

Section methods.

Context {V F : Type}.

(** The state that the methods read and write: the flag
    [__cache__['enabled']], the attributes of the instance [self], and the
    attribute [prev] of every [no_cache] object that has one, by object
    identity.  [calls] is instrumentation, the counting stub of the
    backend: it records each run of the function wrapped by a
    [cached_property], most recent first. *)
Record State : Type := mkState {
  __cache__ : bool;
  self : SparseStorage V;
  prev : gmap nat bool;
  calls : list cache_key
}.

Definition M (A : Type) : Type := State → State * result A.

#[global] Instance M_ret : MRet M := λ A a st, (st, Ok a).

#[global] Instance M_bind : MBind M :=
  λ A B f m st,
    let '(st1, r) := m st in
    match r with
    | Ok a => f a st1
    | Raise e => (st1, Raise e)
    end.

(** A computation that does not touch the state. *)
Definition lift {A : Type} (r : result A) : M A := λ st, (st, r).

(** Reading and replacing [self]. *)
Definition get_self : M (SparseStorage V) := λ st, (st, Ok (self st)).

Definition set_self (obj : SparseStorage V) : M unit :=
  λ st, ({| __cache__ := __cache__ st; self := obj; prev := prev st; calls := calls st |}, Ok ()).

(** ** The cache flag and its guard *)

Definition is_cache_enabled : M bool := λ st, (st, Ok (__cache__ st)).

Definition set_cache_enabled (mode : bool) : M unit :=
  λ st, ({| __cache__ := mode; self := self st; prev := prev st; calls := calls st |}, Ok ()).

(** [g.prev = p] and [g.prev] for the [no_cache] object [g]; reading an
    attribute that was never set raises [AttributeError]. *)
Definition set_prev (g : nat) (p : bool) : M unit :=
  λ st, ({| __cache__ := __cache__ st; self := self st;
            prev := <[g := p]> (prev st); calls := calls st |}, Ok ()).

Definition get_prev (g : nat) : M bool :=
  λ st, match prev st !! g with
        | Some p => (st, Ok p)
        | None => (st, Raise AttributeError)
        end.

(** [no_cache.__enter__] *)
Definition no_cache_enter (g : nat) : M unit :=
  p ← is_cache_enabled;
  _ ← set_prev g p;
  set_cache_enabled false.

(** [no_cache.__exit__]; it returns [False], so an exception of the body
    is raised again by the [with] statement. *)
Definition no_cache_exit (g : nat) : M unit :=
  p ← get_prev g;
  set_cache_enabled p.

(** [with g: body]: [__exit__] runs on every way out of the body. *)
Definition with_ {A : Type} (g : nat) (body : M A) : M A :=
  λ st,
    let '(st1, entered) := no_cache_enter g st in
    match entered with
    | Raise e => (st1, Raise e)
    | Ok _ =>
        let '(st2, r) := body st1 in
        let '(st3, exited) := no_cache_exit g st2 in
        match exited with
        | Raise e => (st3, Raise e)
        | Ok _ => (st3, r)
        end
    end.

(** [no_cache.__call__]: the decorated function runs inside [with self:]. *)
Definition no_cache_call {A B : Type} (g : nat) (func : A → M B) : A → M B :=
  λ args, with_ g (func args).

(** ** Cached properties *)

Definition record_call (key : cache_key) : M unit :=
  λ st, ({| __cache__ := __cache__ st; self := self st; prev := prev st;
            calls := key :: calls st |}, Ok ()).

(** [cached_property.__get__] for the property named [key] with the
    wrapped function [func]. *)
Definition cached_property (key : cache_key) (func : M (list Z)) : M (list Z) :=
  obj ← get_self;
  match getattr key obj with
  | Some value => mret value
  | None =>
      _ ← record_call key;
      value ← func;
      enabled ← is_cache_enabled;
      _ ← (if enabled : bool then
             obj ← get_self; set_self (setattr key (Some value) obj)
           else mret ());
      mret value
  end.

Definition rowptr : M (list Z) :=
  cached_property Krowptr
    (obj ← get_self;
     mret (rowptr_cpu.rowptr (row obj) (sparse_size_dim obj 0))).

Definition rowcount : M (list Z) :=
  cached_property Krowcount
    (rowptr ← rowptr;
     mret (tensor_sub (slice_from 1 rowptr) (slice_to (-1) rowptr))).

Definition csr2csc : M (list Z) :=
  cached_property Kcsr2csc
    (obj ← get_self;
     scaled ← lift (scalar_mul (_sparse_size obj).1 (col obj));
     let idx := tensor_add scaled (row obj) in
     mret (torch.argsort idx)).

Definition csc2csr : M (list Z) :=
  cached_property Kcsc2csr
    (csr2csc ← csr2csc;
     mret (torch.argsort csr2csc)).

(** [colcount]: under [has_colptr()] the read [self.colptr] finds the
    attribute [_colptr] set and returns it, which is what the first branch
    does. *)
Definition colcount : M (list Z) :=
  cached_property Kcolcount
    (obj ← get_self;
     match _colptr obj with
     | Some colptr =>
         mret (tensor_sub (slice_from 1 colptr) (slice_to (-1) colptr))
     | None =>
         let col := col obj in
         let dim_size := sparse_size_dim obj 1 in
         lift (torch_scatter.scatter_add (replicate (length col) 1) col dim_size)
     end).

(** [colptr]; the condition [if self._csr2csc:] takes the truth value of
    the attribute: [None] is false, a tensor goes through [bool]. *)
Definition colptr : M (list Z) :=
  cached_property Kcolptr
    (obj ← get_self;
     cond ← lift (match _csr2csc obj with
                  | None => Ok false
                  | Some t => torch.is_nonzero t
                  end);
     if cond : bool then
       csr2csc ← csr2csc;
       obj ← get_self;
       cols ← lift (torch.index_select (col obj) csr2csc);
       mret (rowptr_cpu.rowptr cols (sparse_size_dim obj 1))
     else
       colcount ← colcount;
       mret (torch.cat (torch.new_zeros 1) (torch.cumsum colcount))).

(** The property named by a cache key, as [getattr(self, key)] finds it. *)
Definition property (key : cache_key) : M (list Z) :=
  match key with
  | Krowcount => rowcount
  | Krowptr => rowptr
  | Kcolcount => colcount
  | Kcolptr => colptr
  | Kcsr2csc => csr2csc
  | Kcsc2csr => csc2csr
  end.

(** [cached_keys] *)
Definition cached_keys (obj : SparseStorage V) : list cache_key :=
  filter (λ key, is_Some (getattr key obj)) cache_keys.

(** [args or self.cache_keys]: an empty argument list stands for all
    keys. *)
Definition args_or_cache_keys (args : list cache_key) : list cache_key :=
  match args with [] => cache_keys | _ => args end.

(** The loop [for arg in ...: getattr(self, arg)] of [fill_cache_]. *)
Fixpoint read_each (args : list cache_key) : M unit :=
  match args with
  | [] => mret ()
  | arg :: args' => _ ← property arg; read_each args'
  end.

(** [fill_cache_] and [clear_cache_] *)
Definition fill_cache_ (args : list cache_key) : M unit :=
  read_each (args_or_cache_keys args).

Definition clear_cache_ (args : list cache_key) (obj : SparseStorage V) : SparseStorage V :=
  foldl (λ o arg, setattr arg None o) obj (args_or_cache_keys args).

(** ** Coalescing *)

(** The linear key of every entry and the mask of the entries whose key
    is above the key before them, the first one compared with [-1]: the
    first two lines of [is_coalesced] and of [coalesce]. *)
Definition linear_key (obj : SparseStorage V) : result (list Z) :=
  scaled ← scalar_mul (sparse_size_dim obj 1) (row obj);
  Ok (tensor_add scaled (col obj)).

Definition first_mask (idx : list Z) : list bool :=
  torch.gt idx (torch.cat (torch.new_full 1 (-1)) (slice_to (-1) idx)).

Definition is_coalesced (obj : SparseStorage V) : result bool :=
  idx ← linear_key obj;
  Ok (torch.all (first_mask idx)).

(** [coalesce]; [reduce] is the reduction that the argument of that name
    selects (the default is ['add']).  The line that takes the first
    component when [segment_csr] returns a tuple has no counterpart:
    [segment_csr] is modelled as returning the values. *)
Definition coalesce (reduce : list V → V) (obj : SparseStorage V) : result (SparseStorage V) :=
  idx ← linear_key obj;
  let mask := first_mask idx in
  if torch.all mask then Ok obj
  else
    let index := torch.masked_select (index obj) mask in
    let value :=
      match value obj with
      | Some value =>
          let idx := tensor_sub_scalar (torch.cumsum (torch.to_long mask)) 1 in
          Some (torch_scatter.segment_csr idx value reduce)
      | None => None
      end in
    __init__ index value (Some (sparse_size obj)) None None None None None None true.

(** ** Values and sizes *)

(** The argument [value] of the value setters as Python sees it: an
    [int], a [float], a tensor, or any other object. *)
Inductive py_value : Type :=
| PyInt (n : Z)
| PyFloat (x : F)
| PyTensor (t : list V)
| PyObject.

(** The method [nnz] that [set_value_], [set_value] and [sparse_resize]
    call on [self].  The class body in storage.py defines no such method,
    so it is a parameter of the three methods. *)
Variable nnz : SparseStorage V → result Z.

(** The first four lines of [set_value_] and of [set_value], which are
    the same: the tensor to store.  An object that is neither a number nor
    a tensor has no attribute [device]. *)
Definition to_value (value : py_value) (layout : option string) : M (list V) :=
  match value with
  | PyInt _ | PyFloat _ =>
      obj ← get_self;
      n ← lift (nnz obj);
      lift (torch.full n None)
  | PyTensor t =>
      layout ← lift (get_layout layout);
      if decide (layout = "csc"%string) then
        perm ← csc2csr;
        lift (torch.index_select t perm)
      else mret t
  | PyObject => lift (Raise AttributeError)
  end.

(** [set_value_]: the instance is changed in place. *)
Definition set_value_ (value : py_value) (layout : option string) : M unit :=
  value ← to_value value layout;
  obj ← get_self;
  _ ← lift (assert (bool_decide (length value = length (index obj))));
  set_self (set__value (Some value) obj).

(** [set_value]: a new instance is returned. *)
Definition set_value (value : py_value) (layout : option string) : M (SparseStorage V) :=
  value ← to_value value layout;
  obj ← get_self;
  _ ← lift (assert (bool_decide (length value = length (_index obj))));
  lift (__init__ (_index obj) (Some value) (Some (_sparse_size obj))
          (_rowcount obj) (_rowptr obj) (_colcount obj) (_colptr obj)
          (_csr2csc obj) (_csc2csr obj) true).

(** [sparse_resize], called with the sizes as its positional arguments.
    A statement [if self.has_rowcount(): rowcount = f(rowcount)] is
    [optional f] on the attribute. *)
Definition sparse_resize (obj : SparseStorage V) (sizes : list Z) : result (SparseStorage V) :=
  match sizes with
  | [size_0; size_1] =>
      let old_sizes := sparse_size obj in
      nnz ← nnz obj;
      let diff_0 := size_0 - old_sizes.1 in
      let '(rowcount, rowptr) :=
        if decide (diff_0 > 0) then
          (optional (λ rowcount, torch.cat rowcount (torch.new_zeros diff_0)) (_rowcount obj),
           optional (λ rowptr, torch.cat rowptr (torch.new_full diff_0 nnz)) (_rowptr obj))
        else
          (optional (λ rowcount, slice_to (- diff_0) rowcount) (_rowcount obj),
           optional (λ rowptr, slice_to (- diff_0) rowptr) (_rowptr obj)) in
      let diff_1 := size_1 - old_sizes.2 in
      let '(colcount, colptr) :=
        if decide (diff_1 > 0) then
          (optional (λ colcount, torch.cat colcount (torch.new_zeros diff_1)) (_colcount obj),
           optional (λ colptr, torch.cat colptr (torch.new_full diff_1 nnz)) (_colptr obj))
        else
          (optional (λ colcount, slice_to (- diff_1) colcount) (_colcount obj),
           optional (λ colptr, slice_to (- diff_1) colptr) (_colptr obj)) in
      __init__ (_index obj) (_value obj) (Some (size_0, size_1))
        rowcount rowptr colcount colptr (_csr2csc obj) (_csc2csr obj) true
  | _ => Raise AssertionError
  end.

End methods.

(** [nnz] as the class body of storage.py has it: there is no such
    method, and the attribute lookup [self.nnz] fails. *)
Definition nnz_undefined {V : Type} (obj : SparseStorage V) : result Z :=
  Raise AttributeError.

(** A method [nnz] as a subclass would have to supply it, returning the
    number of stored entries [index.size(1)].  It is not code of
    storage.py; it serves to follow [sparse_resize] behind the call
    [self.nnz()], which the class as it stands does not get past. *)
Definition nnz_entries {V : Type} (obj : SparseStorage V) : result Z :=
  Ok (Z.of_nat (length (_index obj))).

(** ** Functional transforms *)

Section transforms.

Context {V : Type}.

(** The argument [func] of [apply], [apply_] and [apply_value]: a Python
    function from tensors to tensors, given by what it does to the index
    tensor, to a value tensor and to a long tensor. *)
Record tensor_func : Type := mkTensorFunc {
  on_index : list (Z * Z) → list (Z * Z);
  on_value : list V → list V;
  on_long : list Z → list Z
}.

(** [lambda x: x], and [lambda x: x.clone()], which copies the memory of
    a tensor and keeps its contents. *)
Definition identity_func : tensor_func :=
  {| on_index := λ x, x; on_value := λ x, x; on_long := λ x, x |}.

Definition set__index (index : list (Z * Z)) (obj : SparseStorage V) : SparseStorage V :=
  {| _index := index; _value := _value obj; _sparse_size := _sparse_size obj;
     _rowcount := _rowcount obj; _rowptr := _rowptr obj;
     _colcount := _colcount obj; _colptr := _colptr obj;
     _csr2csc := _csr2csc obj; _csc2csr := _csc2csr obj |}.

(** [apply_value_]: the instance is changed in place. *)
Definition apply_value_ (func : list V → list V) (obj : SparseStorage V) : SparseStorage V :=
  set__value (optional func (_value obj)) obj.

(** [apply_value] *)
Definition apply_value (func : list V → list V) (obj : SparseStorage V)
    : result (SparseStorage V) :=
  __init__ (_index obj) (optional func (_value obj)) (Some (_sparse_size obj))
    (_rowcount obj) (_rowptr obj) (_colcount obj) (_colptr obj)
    (_csr2csc obj) (_csc2csr obj) true.

(** [apply_]: the instance is changed in place, attribute by attribute;
    the keys of the loop are the ones [cached_keys()] returns when the
    loop starts. *)
Definition apply_ (func : tensor_func) (obj : SparseStorage V) : SparseStorage V :=
  let obj := set__index (on_index func (_index obj)) obj in
  let obj := set__value (optional (on_value func) (_value obj)) obj in
  foldl (λ o key, setattr key (optional (on_long func) (getattr key o)) o)
    obj (cached_keys obj).

(** [apply] *)
Definition apply (func : tensor_func) (obj : SparseStorage V) : result (SparseStorage V) :=
  __init__ (on_index func (_index obj)) (optional (on_value func) (_value obj))
    (Some (_sparse_size obj))
    (optional (on_long func) (_rowcount obj)) (optional (on_long func) (_rowptr obj))
    (optional (on_long func) (_colcount obj)) (optional (on_long func) (_colptr obj))
    (optional (on_long func) (_csr2csc obj)) (optional (on_long func) (_csc2csr obj))
    true.

(** [__copy__] and [clone] *)
Definition __copy__ (obj : SparseStorage V) : result (SparseStorage V) :=
  apply identity_func obj.

Definition clone (obj : SparseStorage V) : result (SparseStorage V) :=
  apply identity_func obj.

(** [__deepcopy__]: [memo] is the dictionary of the copies made so far,
    by the identity [id_self] of the copied object. *)
Definition __deepcopy__ (id_self : nat) (obj : SparseStorage V)
    (memo : gmap nat (SparseStorage V)) : result (SparseStorage V * gmap nat (SparseStorage V)) :=
  new_storage ← clone obj;
  Ok (new_storage, <[id_self := new_storage]> memo).

(** [map]: [func] may return any object; it is given by what it does to
    the index tensor, to a value tensor and to a long tensor. *)
Definition map {R : Type} (on_index : list (Z * Z) → R) (on_value : list V → R)
    (on_long : list Z → R) (obj : SparseStorage V) : list R :=
  let data := [on_index (index obj)] in
  let data := data ++ match value obj with Some v => [on_value v] | None => [] end in
  data ++ omap (λ key, optional on_long (getattr key obj)) (cached_keys obj).

End transforms.

Arguments tensor_func : clear implicits.

(** ** Vocabulary of the statements *)

Section statements.

Context {V : Type}.

(** The row-major key [row * num_cols + col] of an entry, in unbounded
    arithmetic, and the condition under which the 64-bit key that the code
    computes is that number. *)
Definition row_major_key (num_cols : Z) (e : Z * Z) : Z := e.1 * num_cols + e.2.

(** The 64-bit key that the code computes for an entry. *)
Definition key64 (n : Z) (e : Z * Z) : Z := add64 (mul64 n e.1) e.2.

Definition keys_fit (num_cols : Z) (index : list (Z * Z)) : Prop :=
  Forall (λ e : Z * Z, - 2 ^ 63 ≤ e.1 * num_cols + e.2 < 2 ^ 63) index.

(** The 64-bit keys of an instance, which [is_coalesced] and [coalesce]
    compute. *)
Definition keys64 (obj : SparseStorage V) : list Z :=
  key64 (_sparse_size obj).2 <$> _index obj.


Definition col_major_key64 (n : Z) (e : Z * Z) : Z := add64 (mul64 n e.2) e.1.


(** The size that [__init__] works with: the one given, or the default. *)
Definition size_of (index : list (Z * Z)) (sparse_size : option (Z * Z)) (size : Z * Z) : Prop :=
  match sparse_size with
  | Some sz => sz = size
  | None => default_sparse_size index = Ok size
  end.

(** What the assertions of [__init__] ask of its arguments. *)
Definition lengths_agree (index : list (Z * Z)) (value : option (list V)) (size : Z * Z)
    (rowcount rowptr colcount colptr csr2csc csc2csr : option (list Z)) : Prop :=
  (∀ v, value = Some v → length v = length index)
  ∧ (∀ t, rowcount = Some t → Z.of_nat (length t) = size.1)
  ∧ (∀ t, rowptr = Some t → Z.of_nat (length t) - 1 = size.1)
  ∧ (∀ t, colcount = Some t → Z.of_nat (length t) = size.2)
  ∧ (∀ t, colptr = Some t → Z.of_nat (length t) - 1 = size.2)
  ∧ (∀ t, csr2csc = Some t → length t = length index)
  ∧ (∀ t, csc2csr = Some t → length t = length index).

End statements.

(** ** Valid instances *)

(** The number of entries of [l] below [i], and equal to [i]. *)
Definition count_below (l : list Z) (i : nat) : Z :=
  Z.of_nat (length (filter (λ r, r < Z.of_nat i) l)).

Definition count_equal (l : list Z) (i : nat) : Z :=
  Z.of_nat (length (filter (λ r, r = Z.of_nat i) l)).

Section validity.

Context {V : Type}.

(** What each cached property computes from the coordinates and the size
    of an instance when nothing is materialized. *)
Definition computed_rowptr (obj : SparseStorage V) : list Z :=
  rowptr_cpu.rowptr (row obj) (sparse_size_dim obj 0).

Definition computed_colcount (obj : SparseStorage V) : list Z :=
  match torch_scatter.scatter_add
          (replicate (length (col obj)) 1) (col obj) (sparse_size_dim obj 1) with
  | Ok t => t
  | Raise _ => []
  end.

Definition computed_csr2csc (obj : SparseStorage V) : list Z :=
  torch.argsort (col_major_key64 (_sparse_size obj).1 <$> _index obj).

Definition computed (key : cache_key) (obj : SparseStorage V) : list Z :=
  match key with
  | Krowptr => computed_rowptr obj
  | Krowcount =>
      tensor_sub (slice_from 1 (computed_rowptr obj)) (slice_to (-1) (computed_rowptr obj))
  | Kcolcount => computed_colcount obj
  | Kcolptr => torch.cat (torch.new_zeros 1) (torch.cumsum (computed_colcount obj))
  | Kcsr2csc => computed_csr2csc obj
  | Kcsc2csr => torch.argsort (computed_csr2csc obj)
  end.

(** The derived arrays that are materialized are the ones the properties
    compute, not arbitrary arrays handed to the constructor. *)
Definition consistent (obj : SparseStorage V) : Prop :=
  ∀ key t, getattr key obj = Some t → t = computed key obj.

(** The coordinates lie within the sparse size, and the sizes and the
    number of entries fit a 64-bit integer. *)
Definition in_range (obj : SparseStorage V) : Prop :=
  0 ≤ (_sparse_size obj).1 < 2 ^ 63 ∧ 0 ≤ (_sparse_size obj).2 < 2 ^ 63
  ∧ Forall (λ e : Z * Z, 0 ≤ e.1 < (_sparse_size obj).1 ∧ 0 ≤ e.2 < (_sparse_size obj).2)
      (_index obj)
  ∧ Z.of_nat (length (_index obj)) < 2 ^ 63.

(** [ptr] is the offset array of the [n] buckets whose sizes are [count],
    over [nnz] entries. *)
Definition offsets (ptr count : list Z) (n nnz : Z) : Prop :=
  Z.of_nat (length ptr) = n + 1
  ∧ Z.of_nat (length count) = n
  ∧ ptr !! 0%nat = Some 0
  ∧ ptr !! Z.to_nat n = Some nnz
  ∧ ∀ i : nat, Z.of_nat i < n →
      ∃ a b, ptr !! i = Some a ∧ ptr !! S i = Some b ∧ count !! i = Some (b - a).

End validity.

(** The mask that [coalesce] computes, by recursion along the keys:
    entry [i] tells whether key [i] is above the key before it, the first
    key being compared with [prev]. *)
Fixpoint ascents (prev : Z) (idx : list Z) : list bool :=
  match idx with
  | [] => []
  | k :: idx' => bool_decide (k > prev) :: ascents k idx'
  end.

(** ** Vocabulary of the cache statements *)

Section cache_statements.

Context {V : Type}.

(** How often the function wrapped by the property [key] has run. *)
Definition count_calls (key : cache_key) (st : @State V) : nat :=
  length (filter (λ k, k = key) (calls st)).

(** The state [st] with the cache flag set to [mode]. *)
Definition with_flag (mode : bool) (st : @State V) : @State V :=
  {| __cache__ := mode; self := self st; prev := prev st; calls := calls st |}.

(** The computation [m] leaves the attribute [prev] of the guard object
    [g] alone. *)
Definition keeps_prev {A : Type} (g : nat) (m : M A) : Prop :=
  ∀ st : @State V, prev (m st).1 !! g = prev st !! g.

(** A run of [m] with the cache disabled ends with the cache disabled
    and with the attributes of the instance as they were. *)
Definition stores_nothing {A : Type} (m : M A) : Prop :=
  ∀ st : @State V, __cache__ st = false →
    self (m st).1 = self st ∧ __cache__ (m st).1 = false.

End cache_statements.

Section cache_invariant.

Context {V : Type}.

(** The condition under which the statements about the derived arrays
    are made, as a condition on the state. *)
Definition valid_state (st : @State V) : Prop :=
  consistent (self st) ∧ in_range (self st).

(** A run of [m] from a valid state ends in a valid state with the same
    coordinates and size, and a value that it returns is the computed
    array of the property [key]. *)
Definition reads_computed (key : cache_key) (m : M (list Z)) : Prop :=
  ∀ st : @State V, valid_state st →
    valid_state (m st).1
    ∧ _index (self (m st).1) = _index (self st)
    ∧ _sparse_size (self (m st).1) = _sparse_size (self st)
    ∧ ∀ v, (m st).2 = Ok v → v = computed key (self st).

End cache_invariant.

(** ** Well-formed instances *)

Section well_formed.

Context {V : Type}.

(** The lengths that the assertions of the constructor check, as a
    condition on an instance. *)
Definition well_formed (obj : SparseStorage V) : Prop :=
  lengths_agree (_index obj) (_value obj) (_sparse_size obj)
    (_rowcount obj) (_rowptr obj) (_colcount obj) (_colptr obj)
    (_csr2csc obj) (_csc2csr obj).

(** Nothing is materialized. *)
Definition nothing_materialized (obj : SparseStorage V) : Prop :=
  ∀ key, getattr key obj = None.

End well_formed.

(** ** What a read may change *)

Section frames.

Context {V : Type}.

(** The instance [obj'] has the coordinates, the values and the size of
    [obj], and every array that is materialized in [obj]. *)
Definition extends (obj obj' : SparseStorage V) : Prop :=
  _index obj' = _index obj ∧ _value obj' = _value obj
  ∧ _sparse_size obj' = _sparse_size obj
  ∧ ∀ key t, getattr key obj = Some t → getattr key obj' = Some t.

(** A run of [m] does nothing to the state but materialize arrays and
    record calls. *)
Definition only_materializes {A : Type} (m : @M V A) : Prop :=
  ∀ st : @State V,
    extends (self st) (self (m st).1)
    ∧ __cache__ (m st).1 = __cache__ st
    ∧ prev (m st).1 = prev st.

End frames.

(** ** Example data *)

(** The reduction ['add'] on integer values. *)
Definition reduce_add (group : list Z) : Z := foldr add64 0 group.

(** The unsorted coordinates (1,0), (0,1) of a 2 x 2 matrix. *)
Definition unsorted_index : list (Z * Z) := [(1, 0); (0, 1)].

(** The coordinates (0,1), (0,1), (1,0) with a duplicate, and their values. *)
Definition duplicate_index : list (Z * Z) := [(0, 1); (0, 1); (1, 0)].
Definition duplicate_value : list Z := [1; 2; 3].

(** One entry in a 1 x 1 matrix with its four count and pointer arrays
    materialized, and the same entry in a 2 x 2 matrix. *)
Definition resize_example : SparseStorage Z :=
  {| _index := [(0, 0)]; _value := Some [7]; _sparse_size := (1, 1);
     _rowcount := Some [1]; _rowptr := Some [0; 1];
     _colcount := Some [1]; _colptr := Some [0; 1];
     _csr2csc := None; _csc2csr := None |}.

Definition resize_grown : SparseStorage Z :=
  {| _index := [(0, 0)]; _value := Some [7]; _sparse_size := (2, 2);
     _rowcount := Some [1; 0]; _rowptr := Some [0; 1; 1];
     _colcount := Some [1; 0]; _colptr := Some [0; 1; 1];
     _csr2csc := None; _csc2csr := None |}.

(** Two entries in one row, no derived array materialized. *)
Definition one_row : SparseStorage Z :=
  {| _index := [(0, 0); (0, 1)]; _value := None; _sparse_size := (1, 2);
     _rowcount := None; _rowptr := None; _colcount := None; _colptr := None;
     _csr2csc := None; _csc2csr := None |}.

(** A process state around an instance: the cache flag, no guard entered,
    no call recorded. *)
Definition initial_state {V : Type} (enabled : bool) (obj : SparseStorage V) : @State V :=
  {| __cache__ := enabled; self := obj; prev := ∅; calls := [] |}.

(** Three entries of a 2 x 2 matrix in row-major order, nothing
    materialized. *)
Definition three_entries : SparseStorage Z :=
  {| _index := [(0, 0); (0, 1); (1, 0)]; _value := None; _sparse_size := (2, 2);
     _rowcount := None; _rowptr := None; _colcount := None; _colptr := None;
     _csr2csc := None; _csc2csr := None |}.

(** Three entries of a 2 x 2 matrix, two of them on one coordinate. *)
Definition with_duplicate : SparseStorage Z :=
  {| _index := [(0, 1); (0, 1); (1, 0)]; _value := Some [1; 2; 3]; _sparse_size := (2, 2);
     _rowcount := None; _rowptr := Some [0; 2; 3]; _colcount := None; _colptr := None;
     _csr2csc := None; _csc2csr := None |}.

(** * Properties *)

(** ** 64-bit arithmetic *)

Lemma wrap64_id (z : Z) : - 2 ^ 63 ≤ z < 2 ^ 63 → wrap64 z = z.
Proof. intros Hz. unfold wrap64. rewrite Z.mod_small; lia. Qed.

Lemma wrap64_range (z : Z) : - 2 ^ 63 ≤ wrap64 z < 2 ^ 63.
Proof.
  unfold wrap64.
  pose proof (Z.mod_pos_bound (z + 2 ^ 63) (2 ^ 64)). lia.
Qed.

Lemma wrap64_add_l (a b : Z) : wrap64 (wrap64 a + b) = wrap64 (a + b).
Proof.
  unfold wrap64. f_equal.
  replace (((a + 2 ^ 63) `mod` 2 ^ 64 - 2 ^ 63 + b + 2 ^ 63))
    with ((a + 2 ^ 63) `mod` 2 ^ 64 + b) by lia.
  rewrite Zplus_mod_idemp_l. f_equal. lia.
Qed.

Lemma add64_neq (a : Z) : add64 a 1 ≠ wrap64 a.
Proof.
  unfold add64, wrap64. intros H.
  assert (E : (a + 1 + 2 ^ 63) `mod` 2 ^ 64 = (a + 2 ^ 63) `mod` 2 ^ 64) by lia.
  clear H.
  pose proof (Z.div_mod (a + 1 + 2 ^ 63) (2 ^ 64)) as H1.
  pose proof (Z.div_mod (a + 2 ^ 63) (2 ^ 64)) as H2.
  lia.
Qed.

(** ** The result monad *)

Lemma bind_Ok {A B : Type} (m : result A) (f : A → result B) (b : B) :
  m ≫= f = Ok b ↔ ∃ a, m = Ok a ∧ f a = Ok b.
Proof.
  destruct m as [a|e]; simpl.
  - split; [eauto | intros (a' & [= <-] & H); done].
  - split; [done | intros (a' & [=] & _)].
Qed.

Lemma Ok_inj {A : Type} (a b : A) : Ok a = Ok b → a = b.
Proof. congruence. Qed.

(** ** Tensor indexing *)

Section indexing.
Context {A : Type}.
Implicit Types (x : list A) (perm : list nat).

Lemma getitem_nat x (i : nat) (a : A) :
  x !! i = Some a → torch.getitem x (Z.of_nat i) = Ok a.
Proof.
  intros H. unfold torch.getitem.
  destruct (decide (Z.of_nat i < 0)); [lia|].
  destruct (decide (0 ≤ Z.of_nat i)); [|lia].
  by rewrite Nat2Z.id, H.
Qed.

Lemma index_select_Forall2 x perm (x' : list A) :
  Forall2 (λ i a, x !! i = Some a) perm x' →
  torch.index_select x (Z.of_nat <$> perm) = Ok x'.
Proof.
  induction 1 as [|i a perm x' Hi _ IH]; [done|].
  cbn [fmap list_fmap torch.index_select]. 
  change (list_fmap nat Z Z.of_nat perm) with (Z.of_nat <$> perm).
  rewrite (getitem_nat _ _ _ Hi). simpl. by rewrite IH.
Qed.

Lemma Forall2_lookup_total x perm :
  Forall (λ i, (i < length x)%nat) perm →
  ∃ x', Forall2 (λ i a, x !! i = Some a) perm x'.
Proof.
  induction 1 as [|i perm Hi _ [x' IH]]; [by exists []|].
  destruct (lookup_lt_is_Some_2 x i Hi) as [a Ha].
  exists (a :: x'). by constructor.
Qed.

Lemma Forall2_lookup_fmap x perm (x' : list A) :
  Forall2 (λ i a, x !! i = Some a) perm x' →
  Some <$> x' = (x !!.) <$> perm.
Proof. induction 1; [done|]. cbn. congruence. Qed.

Lemma lookup_seq_self x : (x !!.) <$> seq 0 (length x) = Some <$> x.
Proof.
  apply list_eq. intros i. rewrite !list_lookup_fmap.
  destruct (decide (i < length x)%nat) as [Hi|Hi].
  - rewrite lookup_seq_lt by done. simpl.
    destruct (lookup_lt_is_Some_2 x i Hi) as [a Ha]. by rewrite Ha.
  - rewrite lookup_seq_ge by lia. rewrite lookup_ge_None_2 by lia. done.
Qed.

(** Gathering along a permutation of the positions reorders the tensor. *)
Lemma index_select_Permutation x perm :
  perm ≡ₚ seq 0 (length x) →
  ∃ x', torch.index_select x (Z.of_nat <$> perm) = Ok x'
        ∧ Forall2 (λ i a, x !! i = Some a) perm x'
        ∧ x' ≡ₚ x.
Proof.
  intros Hp.
  assert (Hlt : Forall (λ i, (i < length x)%nat) perm).
  { rewrite Hp. apply Forall_forall. intros i Hi.
    apply elem_of_seq in Hi. lia. }
  destruct (Forall2_lookup_total _ _ Hlt) as [x' Hx'].
  exists x'. split_and!; [by apply index_select_Forall2 | done |].
  assert (E : Some <$> x' ≡ₚ Some <$> x).
  { rewrite (Forall2_lookup_fmap _ _ _ Hx'), Hp. by rewrite lookup_seq_self. }
  apply Permutation_map_inv in E as (l3 & E1 & E2).
  apply (inj (fmap Some)) in E1. by subst.
Qed.

End indexing.

Lemma Forall2_lookup_map {A B : Type} (f : A → B) (x : list A) (perm : list nat) (x' : list A) :
  Forall2 (λ i a, x !! i = Some a) perm x' →
  Forall2 (λ i b, (f <$> x) !! i = Some b) perm (f <$> x').
Proof.
  induction 1; [constructor|]. cbn. constructor; [|done].
  rewrite list_lookup_fmap. by rewrite H.
Qed.

Lemma Forall2_lookup_Permutation {A : Type} (x : list A) (perm : list nat) (x' : list A) :
  perm ≡ₚ seq 0 (length x) →
  Forall2 (λ i a, x !! i = Some a) perm x' →
  x' ≡ₚ x.
Proof.
  intros Hp Hx'.
  assert (E : Some <$> x' ≡ₚ Some <$> x).
  { rewrite (Forall2_lookup_fmap _ _ _ Hx'), Hp. by rewrite lookup_seq_self. }
  apply Permutation_map_inv in E as (l3 & E1 & E2).
  apply (inj (fmap Some)) in E1. by subst.
Qed.

Lemma Forall2_lookup_inj {A : Type} (x : list A) (perm : list nat) (x1 x2 : list A) :
  Forall2 (λ i a, x !! i = Some a) perm x1 →
  Forall2 (λ i a, x !! i = Some a) perm x2 →
  x1 = x2.
Proof.
  intros H. revert x2.
  induction H as [|i a perm x1 Hi _ IH]; intros x2 H2; inversion H2; subst; [done|].
  f_equal; [congruence | by apply IH].
Qed.

(** ** The contract of argsort *)

#[local] Instance key_le_total : Total torch.key_le.
Proof. intros [k1 i1] [k2 i2]. unfold torch.key_le. simpl. lia. Qed.

#[local] Instance key_le_trans : Transitive torch.key_le.
Proof. intros [k1 i1] [k2 i2] [k3 i3]. unfold torch.key_le. simpl. lia. Qed.

Lemma zip_seq_lookup (keys : list Z) (j : nat) (p : Z * nat) :
  p ∈ zip keys (seq j (length keys)) → ∃ i, p.2 = (j + i)%nat ∧ keys !! i = Some p.1.
Proof.
  revert j. induction keys as [|k keys IH]; intros j; simpl.
  - intros H. by apply elem_of_nil in H.
  - intros [->|H]%elem_of_cons.
    + exists 0%nat. simpl. split; [lia | done].
    + destruct (IH _ H) as (i & Hi & Hk). exists (S i). split; [lia | done].
Qed.

(** [argsort] returns a permutation of the positions, and the keys taken
    in that order are sorted. *)
Lemma argsort_spec (keys : list Z) :
  ∃ (perm : list nat) (ks : list Z),
    torch.argsort keys = Z.of_nat <$> perm
    ∧ perm ≡ₚ seq 0 (length keys)
    ∧ Forall2 (λ i k, keys !! i = Some k) perm ks
    ∧ Sorted Z.le ks.
Proof.
  set (ps := merge_sort torch.key_le (zip keys (seq 0 (length keys)))).
  exists ps.*2, ps.*1. split_and!.
  - unfold torch.argsort. fold ps. by rewrite <- list_fmap_compose.
  - unfold ps. rewrite merge_sort_Permutation.
    rewrite snd_zip; [done | by rewrite length_seq].
  - assert (H : Forall (λ p : Z * nat, keys !! p.2 = Some p.1) ps).
    { apply Forall_forall. intros p Hp. unfold ps in Hp.
      rewrite merge_sort_Permutation in Hp.
      apply zip_seq_lookup in Hp as (i & -> & Hk). done. }
    induction H; [constructor|]. cbn. by constructor.
  - apply (Sorted_fmap _ torch.key_le).
    + intros [k1 i1] [k2 i2]. unfold torch.key_le. simpl. lia.
    + apply Sorted_merge_sort. apply _.
Qed.

Lemma argsort_length (keys : list Z) : length (torch.argsort keys) = length keys.
Proof.
  destruct (argsort_spec keys) as (perm & ks & -> & Hp & _).
  by rewrite length_fmap, Hp, length_seq.
Qed.

Lemma Sorted_seqZ_nat (j n : nat) : Sorted Z.le (Z.of_nat <$> seq j n).
Proof.
  revert j. induction n as [|n IH]; intros j; simpl; [constructor|].
  constructor; [apply IH|].
  destruct n; simpl; constructor. lia.
Qed.

(** The argsort of a permutation of the positions is its inverse. *)
Lemma argsort_inverse (pn : list nat) (n k : nat) :
  pn ≡ₚ seq 0 n → (k < n)%nat →
  ∃ j : nat, pn !! k = Some j
             ∧ torch.argsort (Z.of_nat <$> pn) !! j = Some (Z.of_nat k).
Proof.
  intros Hpn Hk.
  assert (Hlen : length pn = n) by (by rewrite Hpn, length_seq).
  destruct (argsort_spec (Z.of_nat <$> pn)) as (qn & vs & -> & Hq & Hvs & Hsorted).
  rewrite length_fmap, Hlen in Hq.
  assert (Hvs_eq : vs = Z.of_nat <$> seq 0 n).
  { apply (Sorted_unique Z.le); [done | apply Sorted_seqZ_nat |].
    rewrite <- Hpn. eapply Forall2_lookup_Permutation; [|done].
    by rewrite length_fmap, Hlen. }
  subst vs.
  destruct (lookup_lt_is_Some_2 pn k) as [j Hj]; [lia|].
  assert (Hjn : (j < n)%nat).
  { assert (j ∈ seq 0 n) as Hin by (rewrite <- Hpn; by eapply list_elem_of_lookup_2).
    apply elem_of_seq in Hin. lia. }
  exists j. split; [done|].
  destruct (lookup_lt_is_Some_2 qn j) as [i Hi]; [by rewrite Hq, length_seq|].
  rewrite list_lookup_fmap, Hi. simpl. do 2 f_equal.
  eapply Forall2_lookup_lr in Hvs; [|done|].
  2:{ rewrite list_lookup_fmap, lookup_seq_lt by done. done. }
  rewrite list_lookup_fmap in Hvs.
  destruct (pn !! i) as [j'|] eqn:Hj'; [|done].
  simpl in Hvs. assert (j' = j) as -> by (simplify_eq; lia).
  eapply NoDup_lookup; [|done..].
  rewrite Hpn. apply NoDup_seq.
Qed.

(** ** The constructor *)

Lemma assert_optional_Ok {A : Type} (src : option A) (check : A → bool) :
  (∀ x, src = Some x → check x = true) → assert_optional src check = Ok ().
Proof.
  intros H. destruct src as [x|]; simpl; [|done].
  by rewrite (H x eq_refl).
Qed.

Section constructor.

Context {V : Type}.
Implicit Types (index : list (Z * Z)) (value : option (list V)).

Lemma scalar_mul_Ok (n : Z) (t : list Z) :
  int64 n → scalar_mul n t = Ok (mul64 n <$> t).
Proof. intros H. unfold scalar_mul. by rewrite decide_True. Qed.

Lemma scalar_mul_overflow (n : Z) (t : list Z) :
  ¬ int64 n → scalar_mul n t = Raise OverflowError.
Proof. intros H. unfold scalar_mul. by rewrite decide_False. Qed.

Lemma scalar_mul_Ok_inv (n : Z) (t t' : list Z) :
  scalar_mul n t = Ok t' → int64 n ∧ t' = mul64 n <$> t.
Proof.
  unfold scalar_mul. destruct (decide (int64 n)) as [Hn|Hn]; [|done].
  intros H. split; [done|congruence].
Qed.

Lemma tensor_add_key64 (n : Z) index :
  tensor_add (mul64 n <$> row_of index) (col_of index) = key64 n <$> index.
Proof.
  unfold tensor_add, row_of, col_of.
  induction index as [|[r c] index IH]; [done|].
  cbn. f_equal. apply IH.
Qed.

Lemma tensor_add_col_major_key64 (n : Z) index :
  tensor_add (mul64 n <$> col_of index) (row_of index) = col_major_key64 n <$> index.
Proof.
  unfold tensor_add, row_of, col_of.
  induction index as [|[r c] index IH]; [done|].
  cbn. f_equal. apply IH.
Qed.

Lemma linear_key_key64 (obj : SparseStorage V) :
  int64 (_sparse_size obj).2 →
  linear_key obj = Ok (key64 (_sparse_size obj).2 <$> _index obj).
Proof.
  intros H. unfold linear_key, sparse_size_dim, row, col.
  rewrite scalar_mul_Ok by done. cbn [mbind result_bind].
  by rewrite tensor_add_key64.
Qed.

Lemma linear_key_overflow (obj : SparseStorage V) :
  ¬ int64 (_sparse_size obj).2 → linear_key obj = Raise OverflowError.
Proof.
  intros H. unfold linear_key, sparse_size_dim. by rewrite scalar_mul_overflow.
Qed.

Lemma linear_key_Ok_inv (obj : SparseStorage V) (idx : list Z) :
  linear_key obj = Ok idx →
  int64 (_sparse_size obj).2 ∧ idx = key64 (_sparse_size obj).2 <$> _index obj.
Proof.
  intros H. destruct (decide (int64 (_sparse_size obj).2)) as [Hn|Hn].
  - split; [done|]. rewrite linear_key_key64 in H by done. congruence.
  - by rewrite linear_key_overflow in H.
Qed.

Lemma key64_fit (n : Z) (e : Z * Z) :
  - 2 ^ 63 ≤ e.1 * n + e.2 < 2 ^ 63 → key64 n e = row_major_key n e.
Proof.
  intros H. unfold key64, add64, mul64, row_major_key.
  rewrite wrap64_add_l. rewrite wrap64_id; lia.
Qed.

Lemma key64_fit_map (n : Z) index :
  keys_fit n index → key64 n <$> index = row_major_key n <$> index.
Proof.
  induction 1 as [|e index He _ IH]; [done|].
  cbn. f_equal; [by apply key64_fit | apply IH].
Qed.

(** The assertions of [__init__] pass on arguments of matching lengths,
    and the body is left with its last step, the sort. *)
Lemma init_unfold index value sparse_size size
    rowcount rowptr colcount colptr csr2csc csc2csr is_sorted :
  size_of index sparse_size size →
  lengths_agree index value size rowcount rowptr colcount colptr csr2csc csc2csr →
  __init__ index value sparse_size rowcount rowptr colcount colptr csr2csc csc2csr is_sorted
  = '(index, value, csr2csc, csc2csr) ←
      (if negb is_sorted then
         scaled ← scalar_mul size.2 (row_of index);
         let idx := tensor_add scaled (col_of index) in
         if torch.any (torch.lt idx (torch.cat (torch.new_zeros 1) (slice_to (-1) idx))) then
           let perm := torch.argsort idx in
           index ← torch.index_select index perm;
           value ← match value with
                   | None => Ok None
                   | Some v => v ← torch.index_select v perm; Ok (Some v)
                   end;
           Ok (index, value, None, None)
         else Ok (index, value, csr2csc, csc2csr)
       else Ok (index, value, csr2csc, csc2csr));
    Ok {| _index := index; _value := value; _sparse_size := size;
          _rowcount := rowcount; _rowptr := rowptr;
          _colcount := colcount; _colptr := colptr;
          _csr2csc := csr2csc; _csc2csr := csc2csr |}.
Proof.
  intros Hsize (Hv & Hrc & Hrp & Hcc & Hcp & H1 & H2).
  unfold __init__.
  rewrite (assert_optional_Ok value) by (intros; apply bool_decide_eq_true; auto).
  cbn [mbind result_bind].
  assert (match sparse_size with
          | Some sz => Ok sz
          | None => default_sparse_size index
          end = Ok size) as ->.
  { destruct sparse_size; simpl in Hsize; congruence. }
  cbn [mbind result_bind].
  rewrite (assert_optional_Ok rowcount) by (intros; apply bool_decide_eq_true; auto).
  cbn [mbind result_bind].
  rewrite (assert_optional_Ok rowptr) by (intros; apply bool_decide_eq_true; auto).
  cbn [mbind result_bind].
  rewrite (assert_optional_Ok colcount) by (intros; apply bool_decide_eq_true; auto).
  cbn [mbind result_bind].
  rewrite (assert_optional_Ok colptr) by (intros; apply bool_decide_eq_true; auto).
  cbn [mbind result_bind].
  rewrite (assert_optional_Ok csr2csc) by (intros; apply bool_decide_eq_true; auto).
  cbn [mbind result_bind].
  rewrite (assert_optional_Ok csc2csr) by (intros; apply bool_decide_eq_true; auto).
  done.
Qed.

(** A key sequence in which no entry is below its predecessor is sorted. *)
Lemma no_descent_Sorted (prev : Z) (idx : list Z) :
  existsb id (zip_with (λ x y, bool_decide (x < y)) idx (prev :: slice_to (-1) idx)) = false →
  Sorted Z.le idx ∧ (∀ k, head idx = Some k → prev ≤ k).
Proof.
  revert prev. induction idx as [|k idx IH]; intros prev H.
  - split; [constructor | done].
  - assert (E : slice_to (-1) (k :: idx) = match idx with [] => [] | _ => k :: slice_to (-1) idx end).
    { unfold slice_to. simpl. destruct idx; simpl; [done|].
      by rewrite Nat.sub_0_r. }
    rewrite E in H. cbn in H.
    apply orb_false_iff in H as [H1 H2].
    apply bool_decide_eq_false in H1.
    destruct idx as [|k' idx].
    + split; [repeat constructor | intros ? [= <-]; lia].
    + destruct (IH k H2) as [IH1 IH2].
      split; [|intros ? [= <-]; lia].
      constructor; [done|]. constructor. by apply IH2.
Qed.

End constructor.

Lemma Forall2_lookup_zip {A B : Type} (x : list A) (y : list B) (perm : list nat)
    (x' : list A) (y' : list B) :
  Forall2 (λ i a, x !! i = Some a) perm x' →
  Forall2 (λ i b, y !! i = Some b) perm y' →
  Forall2 (λ i p, zip x y !! i = Some p) perm (zip x' y').
Proof.
  intros H. revert y'.
  induction H as [|i a perm x' Hi _ IH]; intros y' Hy; inversion Hy; subst; [constructor|].
  cbn. constructor; [|by apply IH].
  apply lookup_zip_with_Some. eauto.
Qed.

Section constructor_sorts.

Context {V : Type}.
Implicit Types (index : list (Z * Z)) (value : option (list V)).

(** With [is_sorted] false the stored index is a rearrangement of the
    given one whose 64-bit keys are non-decreasing, and the values have
    moved with their coordinates. *)
Lemma init_sorts_linear_key index value sparse_size size
    rowcount rowptr colcount colptr csr2csc csc2csr :
  size_of index sparse_size size →
  lengths_agree index value size rowcount rowptr colcount colptr csr2csc csc2csr →
  int64 size.2 →
  ∃ s, __init__ index value sparse_size rowcount rowptr colcount colptr csr2csc csc2csr false = Ok s
       ∧ _sparse_size s = size
       ∧ _index s ≡ₚ index
       ∧ Sorted Z.le (key64 size.2 <$> _index s)
       ∧ (∀ v, value = Some v →
            ∃ v', _value s = Some v' ∧ zip (_index s) v' ≡ₚ zip index v).
Proof.
  intros Hsize Hlen Hint.
  rewrite (init_unfold _ _ _ size) by done.
  cbn [negb]. rewrite scalar_mul_Ok by done. cbn [mbind result_bind].
  rewrite tensor_add_key64. cbv zeta.
  destruct (torch.any _) eqn:Hany.
  - destruct (argsort_spec (key64 size.2 <$> index))
      as (perm & ks & Hperm & Hp & Hks & Hsorted).
    rewrite Hperm.
    pose proof Hp as Hp'. rewrite length_fmap in Hp'.
    destruct (index_select_Permutation index perm Hp')
      as (index' & Hsel & Hindex' & Hpi).
    rewrite Hsel. cbn [mbind result_bind].
    assert (Hkeys : key64 size.2 <$> index' = ks).
    { apply (Forall2_lookup_map (key64 size.2)) in Hindex'.
      by apply (Forall2_lookup_inj _ _ _ _ Hindex' Hks). }
    destruct value as [v|].
    + destruct Hlen as (Hv & _). specialize (Hv v eq_refl).
      assert (Hpv : perm ≡ₚ seq 0 (length v)) by (by rewrite Hv).
      destruct (index_select_Permutation v perm Hpv) as (v' & Hselv & Hv' & _).
      rewrite Hselv. cbn [mbind result_bind].
      eexists. split; [done|]. cbn.
      split_and!; [done | done | | ].
      * by rewrite Hkeys.
      * intros ? [= <-]. exists v'. split; [done|].
        eapply Forall2_lookup_Permutation; [|by apply Forall2_lookup_zip].
        rewrite length_zip_with, Hv, Nat.min_id. done.
    + cbn [mbind result_bind].
      eexists. split; [done|]. cbn.
      split_and!; [done | done | | done].
      by rewrite Hkeys.
  - cbn [mbind result_bind].
    eexists. split; [done|]. cbn.
    split_and!; [done | done | | by eauto].
    by apply (no_descent_Sorted 0).
Qed.

End constructor_sorts.

(** C1, as amended.  For every construction input that passes the
    assertions of the constructor, whose number of columns is a 64-bit
    integer and whose keys fit in 64 bits, the constructor called with
    [is_sorted] false returns a storage whose index is a rearrangement of
    the given coordinates in row-major sorted order: the key
    [row * num_cols + col] is non-decreasing along it. *)
Theorem init_sorts_row_major {V : Type} (index : list (Z * Z)) (value : option (list V))
    (sparse_size : option (Z * Z)) (size : Z * Z)
    (rowcount rowptr colcount colptr csr2csc csc2csr : option (list Z)) :
  size_of index sparse_size size →
  lengths_agree index value size rowcount rowptr colcount colptr csr2csc csc2csr →
  int64 size.2 →
  keys_fit size.2 index →
  ∃ s, __init__ index value sparse_size rowcount rowptr colcount colptr csr2csc csc2csr false = Ok s
       ∧ _sparse_size s = size
       ∧ _index s ≡ₚ index
       ∧ Sorted Z.le (row_major_key size.2 <$> _index s).
Proof.
  intros Hsize Hlen Hint Hfit.
  destruct (init_sorts_linear_key _ _ _ _ _ _ _ _ _ _ Hsize Hlen Hint)
    as (s & Hs & Hsz & Hperm & Hsorted & _).
  exists s. split_and!; [done..|].
  rewrite <- key64_fit_map; [done|].
  unfold keys_fit. by rewrite Hperm.
Qed.

Lemma init_sorts_row_major_witness :
  ∃ s, __init__ (V:=Z) unsorted_index (Some [10; 20]) (Some (2, 2))
         None None None None (Some [0; 1]) (Some [0; 1]) false = Ok s
       ∧ _sparse_size s = (2, 2)
       ∧ _index s ≡ₚ unsorted_index
       ∧ Sorted Z.le (row_major_key (2, 2).2 <$> _index s).
Proof.
  apply (init_sorts_row_major unsorted_index (Some [10; 20]) (Some (2, 2)) (2, 2)).
  - reflexivity.
  - unfold lengths_agree. split_and!; intros t [= <-]; reflexivity.
  - unfold int64. cbn. lia.
  - unfold keys_fit, unsorted_index. repeat apply Forall_cons_2; [cbn; lia.. | apply Forall_nil_2].
Defined.

(** C1 as stated fails for the hint [is_sorted = True]: the coordinates
    (1,0), (0,1) are stored in that order, with keys 2, 1. *)
Lemma init_sorted_hint_keeps_disorder :
  ∃ s, __init__ (V:=Z) unsorted_index None (Some (2, 2))
         None None None None None None true = Ok s
       ∧ row_major_key 2 <$> _index s = [2; 1]
       ∧ ¬ Sorted Z.le (row_major_key 2 <$> _index s).
Proof.
  eexists. split; [reflexivity|]. split; [reflexivity|].
  cbn. intros H. apply Sorted_inv in H as [_ Hd].
  apply HdRel_inv in Hd. unfold row_major_key in Hd. simpl in Hd. lia.
Qed.

(** C10.  Called with [is_sorted] true on arguments that pass its
    assertions, the constructor stores the index, the value and every
    supplied derived array exactly as given, whatever the order of the
    index. *)
Theorem init_sorted_hint_stores_as_given {V : Type} (index : list (Z * Z))
    (value : option (list V)) (sparse_size : option (Z * Z)) (size : Z * Z)
    (rowcount rowptr colcount colptr csr2csc csc2csr : option (list Z)) :
  size_of index sparse_size size →
  lengths_agree index value size rowcount rowptr colcount colptr csr2csc csc2csr →
  __init__ index value sparse_size rowcount rowptr colcount colptr csr2csc csc2csr true
  = Ok {| _index := index; _value := value; _sparse_size := size;
          _rowcount := rowcount; _rowptr := rowptr;
          _colcount := colcount; _colptr := colptr;
          _csr2csc := csr2csc; _csc2csr := csc2csr |}.
Proof.
  intros Hsize Hlen. by rewrite (init_unfold _ _ _ size).
Qed.

Lemma init_sorted_hint_stores_as_given_witness :
  __init__ (V:=Z) unsorted_index (Some [10; 20]) None
    (Some [1; 1]) (Some [0; 1; 2]) (Some [1; 1]) (Some [0; 1; 2])
    (Some [1; 0]) (Some [1; 0]) true
  = Ok {| _index := unsorted_index; _value := Some [10; 20]; _sparse_size := (2, 2);
          _rowcount := Some [1; 1]; _rowptr := Some [0; 1; 2];
          _colcount := Some [1; 1]; _colptr := Some [0; 1; 2];
          _csr2csc := Some [1; 0]; _csc2csr := Some [1; 0] |}.
Proof.
  apply (init_sorted_hint_stores_as_given unsorted_index (Some [10; 20]) None (2, 2)).
  - reflexivity.
  - unfold lengths_agree. split_and!; intros t [= <-]; reflexivity.
Defined.

(** C2.  The coordinates (0,1), (0,1), (1,0) with the values 1, 2, 3 in
    a 2 x 2 matrix coalesce under the sum to the coordinates (0,1), (1,0)
    with the values 3, 3. *)
Theorem coalesce_sum_example :
  ∃ s, __init__ duplicate_index (Some duplicate_value) (Some (2, 2))
         None None None None None None false = Ok s
       ∧ ∃ s', coalesce reduce_add s = Ok s'
               ∧ _index s' = [(0, 1); (1, 0)]
               ∧ _value s' = Some [3; 3]
               ∧ _sparse_size s' = (2, 2).
Proof.
  eexists. split; [vm_compute; reflexivity|].
  eexists. split; [vm_compute; reflexivity|].
  by split_and!.
Qed.

(** ** Resizing *)

Section resize.

Context {V : Type}.
Implicit Types (obj : SparseStorage V) (nnz : SparseStorage V → result Z).

(** What a successful call of the constructor with [is_sorted] true has
    checked and stored. *)
Lemma init_sorted_hint_inv (index : list (Z * Z)) (value : option (list V)) (size : Z * Z)
    (rowcount rowptr colcount colptr csr2csc csc2csr : option (list Z)) (s : SparseStorage V) :
  __init__ index value (Some size) rowcount rowptr colcount colptr csr2csc csc2csr true = Ok s →
  s = {| _index := index; _value := value; _sparse_size := size;
         _rowcount := rowcount; _rowptr := rowptr;
         _colcount := colcount; _colptr := colptr;
         _csr2csc := csr2csc; _csc2csr := csc2csr |}
  ∧ (∀ t, rowcount = Some t → Z.of_nat (length t) = size.1)
  ∧ (∀ t, rowptr = Some t → Z.of_nat (length t) - 1 = size.1)
  ∧ (∀ t, colcount = Some t → Z.of_nat (length t) = size.2)
  ∧ (∀ t, colptr = Some t → Z.of_nat (length t) - 1 = size.2).
Proof.
  unfold __init__. intros H.
  apply bind_Ok in H as ([] & H0 & H).
  cbn [mbind result_bind] in H.
  apply bind_Ok in H as ([] & H1 & H).
  apply bind_Ok in H as ([] & H2 & H).
  apply bind_Ok in H as ([] & H3 & H).
  apply bind_Ok in H as ([] & H4 & H).
  apply bind_Ok in H as ([] & H5 & H).
  apply bind_Ok in H as ([] & H6 & H).
  cbn in H. injection H as <-.
  split_and!; [done|..]; intros t ->; cbn in *.
  - unfold assert in H1. by case_bool_decide.
  - unfold assert in H2. by case_bool_decide.
  - unfold assert in H3. by case_bool_decide.
  - unfold assert in H4. by case_bool_decide.
Qed.

(** Resizing leaves the coordinates, the values and the permutation pair
    as they are, whenever it returns. *)
Lemma sparse_resize_frame nnz obj (sizes : list Z) (s : SparseStorage V) :
  sparse_resize nnz obj sizes = Ok s →
  _index s = _index obj ∧ _value s = _value obj
  ∧ _csr2csc s = _csr2csc obj ∧ _csc2csr s = _csc2csr obj
  ∧ sizes = [(_sparse_size s).1; (_sparse_size s).2].
Proof.
  unfold sparse_resize. intros H.
  destruct sizes as [|size_0 [|size_1 [|]]]; try done.
  apply bind_Ok in H as (n & _ & H).
  repeat case_decide;
    apply init_sorted_hint_inv in H as (-> & _); done.
Qed.

(** A row dimension that has both its count and its pointer array
    materialized cannot be resized to its own size or to a smaller one:
    the slice [[:-diff_0]] keeps the first [-diff_0] entries of both
    arrays, and the two cannot both have the length that the constructor
    asserts. *)
Lemma sparse_resize_rows_not_above_raises nnz obj (size_0 size_1 : Z) (c p : list Z) :
  _rowcount obj = Some c → _rowptr obj = Some p →
  Z.of_nat (length c) = (_sparse_size obj).1 →
  Z.of_nat (length p) - 1 = (_sparse_size obj).1 →
  size_0 ≤ (_sparse_size obj).1 →
  ∃ e, sparse_resize nnz obj [size_0; size_1] = Raise e.
Proof.
  intros Hc Hp Hlc Hlp Hle.
  destruct (sparse_resize nnz obj [size_0; size_1]) as [s|e] eqn:H; [|by eauto].
  exfalso. unfold sparse_resize in H.
  apply bind_Ok in H as (n & _ & H).
  unfold sparse_size in H.
  destruct (decide (size_0 - (_sparse_size obj).1 > 0)); [lia|].
  rewrite Hc, Hp in H. cbn [optional] in H.
  destruct (decide (size_1 - (_sparse_size obj).2 > 0));
    apply init_sorted_hint_inv in H as (_ & H1 & H2 & _);
    specialize (H1 _ eq_refl); specialize (H2 _ eq_refl);
    cbn in H1, H2; unfold slice_to in H1, H2;
    (destruct (decide (0 ≤ - (size_0 - (_sparse_size obj).1))); [|lia]);
    rewrite length_take in H1, H2; lia.
Qed.

(** So no resize of such a storage can be undone by a second resize. *)
Lemma sparse_resize_no_way_back nnz obj (sizes : list Z) (s : SparseStorage V) (c p : list Z) :
  _rowcount obj = Some c → _rowptr obj = Some p →
  Z.of_nat (length c) = (_sparse_size obj).1 →
  Z.of_nat (length p) - 1 = (_sparse_size obj).1 →
  sparse_resize nnz obj sizes = Ok s →
  ∃ e, sparse_resize nnz s [(_sparse_size obj).1; (_sparse_size obj).2] = Raise e.
Proof.
  intros Hc Hp Hlc Hlp Hs.
  destruct sizes as [|size_0 [|size_1 [|]]]; try done.
  destruct (decide (size_0 ≤ (_sparse_size obj).1)) as [Hle|Hgt].
  { destruct (sparse_resize_rows_not_above_raises nnz obj size_0 size_1 c p) as [e He];
      try done. congruence. }
  unfold sparse_resize in Hs.
  apply bind_Ok in Hs as (n & _ & Hs).
  unfold sparse_size in Hs.
  destruct (decide (size_0 - (_sparse_size obj).1 > 0)); [|lia].
  rewrite Hc, Hp in Hs. cbn [optional] in Hs.
  destruct (decide (size_1 - (_sparse_size obj).2 > 0));
    apply init_sorted_hint_inv in Hs as (-> & H1 & H2 & _);
    (eapply sparse_resize_rows_not_above_raises; cbn;
       [done | done | by apply H1 | by apply H2 | lia]).
Qed.

End resize.

(** C3, at a failing input.  The storage of one entry in a 1 x 1 matrix
    with all four count and pointer arrays materialized is resized to
    2 x 2, which extends the arrays; resizing the result back to 1 x 1
    does not restore the arrays, it raises [AssertionError].  With the
    class as it stands, without a method [nnz], the first resize already
    raises [AttributeError]. *)
Theorem sparse_resize_back_raises :
  sparse_resize nnz_entries resize_example [2; 2] = Ok resize_grown
  ∧ sparse_resize nnz_entries resize_grown [1; 1] = Raise AssertionError
  ∧ sparse_resize nnz_undefined resize_example [2; 2] = Raise AttributeError.
Proof. split_and!; reflexivity. Qed.

(** ** Setting the value *)

(** C4, at every input.  Whatever [nnz] does, the value setters called
    with an [int] or a [float] store nothing: they raise, and when [nnz]
    returns the exception is the [TypeError] of [torch.full] called
    without its fill value. *)
Theorem set_value_scalar_raises {V F : Type} (nnz : SparseStorage V → result Z)
    (layout : option string) (st : @State V) :
  (∀ n : Z, ∃ e, set_value_ (F:=F) nnz (PyInt n) layout st = (st, Raise e))
  ∧ (∀ x : F, ∃ e, set_value_ nnz (PyFloat x) layout st = (st, Raise e))
  ∧ (∀ n : Z, ∃ e, set_value (F:=F) nnz (PyInt n) layout st = (st, Raise e))
  ∧ (∀ x : F, ∃ e, set_value nnz (PyFloat x) layout st = (st, Raise e))
  ∧ (∀ (n k : Z), nnz (self st) = Ok k →
       set_value_ (F:=F) nnz (PyInt n) layout st = (st, Raise TypeError)
       ∧ set_value (F:=F) nnz (PyInt n) layout st = (st, Raise TypeError)).
Proof.
  split_and!.
  1-4: intros ?;
    cbv beta iota zeta delta [set_value_ set_value to_value get_self lift mbind M_bind];
    destruct (nnz (self st)) as [k'|e]; cbn; eauto.
  intros n k Hk.
  cbv beta iota zeta delta [set_value_ set_value to_value get_self lift mbind M_bind].
  by rewrite Hk.
Qed.

(** ** The column pointer *)

Section colptr_condition.

Context {V : Type}.

(** Once [_csr2csc] holds a tensor that does not have exactly one
    element, a read of [colptr] that has to compute raises [RuntimeError]
    at the condition [if self._csr2csc:]. *)
Lemma colptr_raises_on_csr2csc (st : @State V) (t : list Z) :
  _colptr (self st) = None →
  _csr2csc (self st) = Some t →
  length t ≠ 1%nat →
  (colptr st).2 = Raise RuntimeError.
Proof.
  intros Hnone Hsome Hlen.
  cbv beta iota zeta delta
    [colptr cached_property get_self record_call lift mbind M_bind getattr].
  cbn [self]. rewrite Hnone. cbn [self]. rewrite Hsome.
  destruct t as [|x [|y t]]; done.
Qed.

End colptr_condition.

(** C5, at a failing input.  On the storage of the two entries (0,0),
    (0,1) a read of [csr2csc] with the cache enabled materializes the
    permutation [0; 1]; the read of [colptr] that follows does not return
    the pointer array of the columns in CSC order, which is [0; 1; 2]: it
    raises [RuntimeError]. *)
Theorem colptr_raises_after_csr2csc :
  ∃ st, csr2csc (initial_state true one_row) = (st, Ok [0; 1])
        ∧ _csr2csc (self st) = Some [0; 1]
        ∧ _colptr (self st) = None
        ∧ rowptr_cpu.rowptr [0; 1] 2 = [0; 1; 2]
        ∧ (colptr st).2 = Raise RuntimeError.
Proof.
  eexists. split; [vm_compute; reflexivity|].
  split_and!; reflexivity.
Qed.

(** ** Reading the cached properties *)

Ltac run_M :=
  cbv beta iota zeta delta
    [rowptr rowcount colptr colcount csr2csc csc2csr property cached_property
     get_self set_self record_call is_cache_enabled lift mbind M_bind mret M_ret];
  cbn [self __cache__ getattr fst snd].

Section reads.

Context {V : Type}.
Implicit Types (st : @State V) (obj : SparseStorage V).

Lemma rowptr_value st :
  consistent (self st) → (rowptr st).2 = Ok (computed Krowptr (self st)).
Proof.
  intros Hc. run_M.
  destruct (_rowptr (self st)) as [t|] eqn:E.
  - cbn. f_equal. by apply (Hc Krowptr).
  - by destruct (__cache__ st).
Qed.

Lemma rowcount_value st :
  consistent (self st) → (rowcount st).2 = Ok (computed Krowcount (self st)).
Proof.
  intros Hc. run_M.
  destruct (_rowcount (self st)) as [t|] eqn:E.
  { cbn. f_equal. by apply (Hc Krowcount). }
  destruct (_rowptr (self st)) as [p|] eqn:Ep.
  - cbn. rewrite (Hc Krowptr p Ep). by destruct (__cache__ st).
  - by destruct (__cache__ st).
Qed.



(** The reads of the two permutations, on an instance on which a
    materialized permutation is the computed one. *)
Lemma csr2csc_value_at st :
  (∀ t, _csr2csc (self st) = Some t → t = computed Kcsr2csc (self st)) →
  int64 (_sparse_size (self st)).1 →
  (csr2csc st).2 = Ok (computed Kcsr2csc (self st)).
Proof.
  intros Hc Hn. run_M.
  destruct (_csr2csc (self st)) as [t|] eqn:E.
  - cbn. f_equal. by apply Hc.
  - rewrite scalar_mul_Ok by done. unfold col, row.
    rewrite tensor_add_col_major_key64. by destruct (__cache__ st).
Qed.


Lemma csc2csr_value_at st :
  (∀ t, _csr2csc (self st) = Some t → t = computed Kcsr2csc (self st)) →
  (∀ t, _csc2csr (self st) = Some t → t = computed Kcsc2csr (self st)) →
  int64 (_sparse_size (self st)).1 →
  (csc2csr st).2 = Ok (computed Kcsc2csr (self st)).
Proof.
  intros Hp Hq Hn. run_M.
  destruct (_csc2csr (self st)) as [t|] eqn:E.
  { cbn. f_equal. by apply Hq. }
  destruct (_csr2csc (self st)) as [p|] eqn:Ep.
  - cbn. rewrite (Hp p eq_refl). by destruct (__cache__ st).
  - rewrite scalar_mul_Ok by done. unfold col, row.
    rewrite tensor_add_col_major_key64. by destruct (__cache__ st).
Qed.

Lemma csr2csc_value st :
  consistent (self st) → int64 (_sparse_size (self st)).1 →
  (csr2csc st).2 = Ok (computed Kcsr2csc (self st)).
Proof. intros Hc. apply csr2csc_value_at. intros t. apply (Hc Kcsr2csc). Qed.

Lemma csc2csr_value st :
  consistent (self st) → int64 (_sparse_size (self st)).1 →
  (csc2csr st).2 = Ok (computed Kcsc2csr (self st)).
Proof.
  intros Hc. apply csc2csr_value_at; intros t; [apply (Hc Kcsr2csc) | apply (Hc Kcsc2csr)].
Qed.

End reads.


Lemma nothing_materialized_consistent {V : Type} (obj : SparseStorage V) :
  (∀ key, getattr key obj = None) → consistent obj.
Proof. intros H key t Ht. by rewrite H in Ht. Qed.



(** ** Counting entries: pointers and counts *)

Section counting.

Implicit Types (l : list Z) (j n : nat).

Lemma below_succ l j : count_below l (S j) = count_below l j + count_equal l j.
Proof.
  unfold count_below, count_equal.
  induction l as [|x l IH]; [done|].
  rewrite !filter_cons. repeat case_decide; simpl length; lia.
Qed.

Lemma below_le l j : 0 ≤ count_below l j ≤ Z.of_nat (length l).
Proof.
  unfold count_below. pose proof (length_filter (λ r, r < Z.of_nat j) l). lia.
Qed.

Lemma equal_le l j : 0 ≤ count_equal l j ≤ Z.of_nat (length l).
Proof.
  unfold count_equal. pose proof (length_filter (λ r, r = Z.of_nat j) l). lia.
Qed.

Lemma below_0 l : Forall (λ x, 0 ≤ x) l → count_below l 0 = 0.
Proof.
  unfold count_below.
  induction 1 as [|x l Hx _ IH]; [done|].
  rewrite filter_cons. case_decide; [lia | done].
Qed.

Lemma below_all l n : Forall (λ x, x < Z.of_nat n) l → count_below l n = Z.of_nat (length l).
Proof.
  unfold count_below.
  induction 1 as [|x l Hx _ IH]; [done|].
  rewrite filter_cons. case_decide; [|lia]. simpl length. lia.
Qed.

Lemma rowptr_unfold l (size : Z) :
  rowptr_cpu.rowptr l size = (λ i : nat, count_below l i) <$> seq 0 (Z.to_nat (size + 1)).
Proof. done. Qed.

(** The sum that [scatter_add] forms for bucket [j] from a tensor of
    ones is the number of entries of that bucket. *)
Lemma scatter_ones l j :
  foldr Z.add 0 (filter (λ p : Z * Z, p.2 = Z.of_nat j) (zip (replicate (length l) 1) l)).*1
  = count_equal l j.
Proof.
  unfold count_equal.
  induction l as [|x l IH]; [done|].
  cbn [length replicate zip zip_with]. rewrite !filter_cons.
  cbn [snd]. case_decide; cbn [fmap list_fmap foldr fst length]; rewrite IH; lia.
Qed.

Lemma scatter_add_ones l (size : Z) :
  Forall (λ x, 0 ≤ x < size) l → Z.of_nat (length l) < 2 ^ 63 →
  torch_scatter.scatter_add (replicate (length l) 1) l size
  = Ok ((λ j : nat, count_equal l j) <$> seq 0 (Z.to_nat size)).
Proof.
  intros Hl Hlen. unfold torch_scatter.scatter_add.
  assert (forallb (λ x, bool_decide (0 ≤ x < size)) l = true) as ->.
  { apply forallb_forall. intros x Hx. apply bool_decide_eq_true.
    rewrite Forall_forall in Hl. apply Hl. by apply list_elem_of_In. }
  f_equal. apply list_fmap_ext. intros _ j _.
  rewrite scatter_ones. apply wrap64_id. pose proof (equal_le l j). lia.
Qed.

(** The running sum of the bucket sizes is the pointer array. *)
Lemma cumsum_equal l j n :
  Z.of_nat (length l) < 2 ^ 63 →
  torch.cumsum_from (count_below l j) ((λ i : nat, count_equal l i) <$> seq j n)
  = (λ i : nat, count_below l (S i)) <$> seq j n.
Proof.
  intros Hlen. revert j. induction n as [|n IH]; intros j; [done|].
  cbn [seq fmap list_fmap torch.cumsum_from].
  assert (E : add64 (count_below l j) (count_equal l j) = count_below l (S j)).
  { rewrite below_succ. apply wrap64_id.
    pose proof (below_le l (S j)). rewrite below_succ in H. lia. }
  rewrite E. f_equal. apply IH.
Qed.

(** The differences of neighbouring entries of a tensor given by a
    function of the position. *)
Lemma tensor_sub_neighbours (f : nat → Z) n :
  tensor_sub (slice_from 1 (f <$> seq 0 (S n))) (slice_to (-1) (f <$> seq 0 (S n)))
  = (λ i : nat, sub64 (f (S i)) (f i)) <$> seq 0 n.
Proof.
  unfold slice_from, slice_to, tensor_sub.
  destruct (decide (0 ≤ -1)); [lia|].
  rewrite length_fmap, length_seq.
  replace (S n - Z.to_nat (- -1))%nat with n by lia.
  rewrite <- fmap_take, <- fmap_drop, take_seq, drop_seq.
  replace (n `min` S n)%nat with n by lia.
  replace (S n - 1)%nat with n by lia.
  change (0 + 1)%nat with 1%nat.
  generalize 0%nat as j. induction n as [|n IH]; intros j; [done|].
  cbn [seq fmap list_fmap zip_with]. f_equal. apply IH.
Qed.

Lemma sub64_below l j :
  Z.of_nat (length l) < 2 ^ 63 →
  sub64 (count_below l (S j)) (count_below l j) = count_equal l j.
Proof.
  intros Hlen. unfold sub64. rewrite below_succ.
  replace (count_below l j + count_equal l j - count_below l j) with (count_equal l j) by lia.
  apply wrap64_id. pose proof (equal_le l j). lia.
Qed.

(** The pointer primitive and the differences of its result form the
    offsets of the buckets. *)
Lemma rowptr_offsets l (size : Z) :
  0 ≤ size → Forall (λ x, 0 ≤ x < size) l → Z.of_nat (length l) < 2 ^ 63 →
  offsets (rowptr_cpu.rowptr l size)
    (tensor_sub (slice_from 1 (rowptr_cpu.rowptr l size))
       (slice_to (-1) (rowptr_cpu.rowptr l size)))
    size (Z.of_nat (length l)).
Proof.
  intros Hsize Hl Hlen.
  rewrite rowptr_unfold.
  replace (Z.to_nat (size + 1)) with (S (Z.to_nat size)) by lia.
  rewrite tensor_sub_neighbours.
  unfold offsets. rewrite !length_fmap, !length_seq. split_and!; [lia | lia | | |].
  - cbn. f_equal. apply below_0. eapply Forall_impl; [done|]. simpl. lia.
  - rewrite list_lookup_fmap, lookup_seq_lt by lia. cbn. f_equal.
    apply below_all. eapply Forall_impl; [done|]. simpl. lia.
  - intros i Hi. exists (count_below l i), (count_below l (S i)).
    rewrite !list_lookup_fmap, !lookup_seq_lt by lia. cbn.
    split_and!; [done | done |].
    f_equal. rewrite sub64_below by done. rewrite below_succ. lia.
Qed.

(** The bucket sizes are those differences, and the pointer array is
    zero followed by their running sum. *)
Lemma rowptr_differences l (size : Z) :
  Z.of_nat (length l) < 2 ^ 63 →
  tensor_sub (slice_from 1 (rowptr_cpu.rowptr l size)) (slice_to (-1) (rowptr_cpu.rowptr l size))
  = (λ j : nat, count_equal l j) <$> seq 0 (Z.to_nat size).
Proof.
  intros Hlen. rewrite rowptr_unfold.
  destruct (decide (0 ≤ size)) as [Hs|Hs].
  - replace (Z.to_nat (size + 1)) with (S (Z.to_nat size)) by lia.
    rewrite tensor_sub_neighbours.
    apply list_fmap_ext. intros _ j _. by apply sub64_below.
  - replace (Z.to_nat (size + 1)) with 0%nat by lia.
    replace (Z.to_nat size) with 0%nat by lia. done.
Qed.

Lemma cumsum_counts l (size : Z) :
  0 ≤ size → Forall (λ x, 0 ≤ x) l → Z.of_nat (length l) < 2 ^ 63 →
  torch.cat (torch.new_zeros 1)
    (torch.cumsum ((λ j : nat, count_equal l j) <$> seq 0 (Z.to_nat size)))
  = rowptr_cpu.rowptr l size.
Proof.
  intros Hsize Hl Hlen. rewrite rowptr_unfold.
  replace (Z.to_nat (size + 1)) with (S (Z.to_nat size)) by lia.
  cbn [seq fmap list_fmap]. unfold torch.cat, torch.new_zeros, torch.cumsum.
  cbn [replicate Z.to_nat Pos.to_nat Pos.iter_op app].
  rewrite below_0 by done. f_equal.
  rewrite <- (below_0 l) at 1 by done.
  rewrite cumsum_equal by done.
  by rewrite <- fmap_S_seq, <- list_fmap_compose.
Qed.

End counting.

Lemma argsort_singleton (k : Z) : torch.argsort [k] = [0].
Proof. reflexivity. Qed.

Section pointer_reads.

Context {V : Type}.
Implicit Types (st : @State V) (obj : SparseStorage V).

Lemma in_range_col obj :
  in_range obj → Forall (λ x, 0 ≤ x < (_sparse_size obj).2) (col obj).
Proof.
  intros (_ & _ & H & _). unfold col, col_of. apply Forall_fmap.
  eapply Forall_impl; [done|]. intros [r c]. simpl. lia.
Qed.

Lemma in_range_row obj :
  in_range obj → Forall (λ x, 0 ≤ x < (_sparse_size obj).1) (row obj).
Proof.
  intros (_ & _ & H & _). unfold row, row_of. apply Forall_fmap.
  eapply Forall_impl; [done|]. intros [r c]. simpl. lia.
Qed.

Lemma length_col obj : length (col obj) = length (_index obj).
Proof. unfold col, col_of. by rewrite length_fmap. Qed.

Lemma length_row obj : length (row obj) = length (_index obj).
Proof. unfold row, row_of. by rewrite length_fmap. Qed.

Lemma scatter_add_col obj :
  in_range obj →
  torch_scatter.scatter_add (replicate (length (col obj)) 1) (col obj) (sparse_size_dim obj 1)
  = Ok (computed_colcount obj).
Proof.
  intros Hr. unfold computed_colcount.
  rewrite scatter_add_ones; [done | by apply in_range_col |].
  rewrite length_col. apply Hr.
Qed.

Lemma computed_colcount_differences obj :
  in_range obj →
  computed_colcount obj
  = tensor_sub (slice_from 1 (rowptr_cpu.rowptr (col obj) (_sparse_size obj).2))
      (slice_to (-1) (rowptr_cpu.rowptr (col obj) (_sparse_size obj).2)).
Proof.
  intros Hr. unfold computed_colcount.
  rewrite scatter_add_ones; [| by apply in_range_col | rewrite length_col; apply Hr].
  rewrite rowptr_differences; [done|]. rewrite length_col. apply Hr.
Qed.

Lemma computed_colptr_rowptr obj :
  in_range obj →
  computed Kcolptr obj = rowptr_cpu.rowptr (col obj) (_sparse_size obj).2.
Proof.
  intros Hr. cbn [computed]. unfold computed_colcount.
  rewrite scatter_add_ones; [| by apply in_range_col | rewrite length_col; apply Hr].
  apply cumsum_counts; [apply Hr | | rewrite length_col; apply Hr].
  eapply Forall_impl; [by apply in_range_col|]. simpl. lia.
Qed.

Lemma colcount_value st :
  consistent (self st) → in_range (self st) →
  (colcount st).2 = Ok (computed Kcolcount (self st)).
Proof.
  intros Hc Hr. run_M.
  destruct (_colcount (self st)) as [t|] eqn:E.
  { cbn. f_equal. by apply (Hc Kcolcount). }
  destruct (_colptr (self st)) as [q|] eqn:Eq.
  - rewrite (Hc Kcolptr q Eq), computed_colptr_rowptr by done.
    rewrite <- computed_colcount_differences by done.
    by destruct (__cache__ st).
  - rewrite scatter_add_col by done. by destruct (__cache__ st).
Qed.

(** A read of [colptr] returns the computed pointer array, unless it
    stops at the condition [if self._csr2csc:]. *)
Lemma colptr_value st :
  consistent (self st) → in_range (self st) →
  (colptr st).2 = Ok (computed Kcolptr (self st))
  ∨ (colptr st).2 = Raise RuntimeError
    ∧ _colptr (self st) = None ∧ is_Some (_csr2csc (self st)).
Proof.
  intros Hc Hr.
  pose proof (colcount_value st Hc Hr) as Hcc. revert Hcc.
  destruct (_colptr (self st)) as [q|] eqn:Eq.
  { intros _. left. run_M. rewrite Eq. cbn. f_equal. by apply (Hc Kcolptr). }
  destruct (_csr2csc (self st)) as [t|] eqn:Et.
  - destruct t as [|x [|y t]].
    { intros _. right. split; [|by eauto]. run_M. by rewrite Eq, Et. }
    2:{ intros _. right. split; [|by eauto]. run_M. by rewrite Eq, Et. }
    pose proof (Hc Kcsr2csc _ Et) as Hx. cbn [computed] in Hx.
    unfold computed_csr2csc in Hx.
    assert (length (_index (self st)) = 1%nat) as Hlen.
    { apply (f_equal length) in Hx. rewrite argsort_length, length_fmap in Hx.
      simpl in Hx. lia. }
    assert (x = 0) as ->.
    { revert Hx.
      destruct (_index (self st)) as [|[r c] [|]]; try done.
      cbn [fmap list_fmap].
      rewrite argsort_singleton. congruence. }
    intros Hcc. left. revert Hcc. run_M. rewrite Eq, Et.
    cbn [torch.is_nonzero]. rewrite bool_decide_eq_false_2 by lia.
    cbn [self __cache__ getattr fst snd].
    destruct (_colcount (self st)) as [d|] eqn:Ed.
    + cbn. intros [= ->]. by destruct (__cache__ st).
    + cbn [self __cache__ getattr fst snd]. rewrite Eq.
      rewrite scatter_add_col by done.
      cbn [self __cache__ getattr fst snd]. by destruct (__cache__ st).
  - intros Hcc. left. revert Hcc. run_M. rewrite Eq, Et.
    cbn [self __cache__ getattr fst snd].
    destruct (_colcount (self st)) as [d|] eqn:Ed.
    + cbn. intros [= ->]. by destruct (__cache__ st).
    + cbn [self __cache__ getattr fst snd]. rewrite Eq.
      rewrite scatter_add_col by done.
      cbn [self __cache__ getattr fst snd]. by destruct (__cache__ st).
Qed.

End pointer_reads.

(** C6, as amended.  On every storage whose rows are in sorted order,
    whose coordinates lie within its sparse size, whose sizes and number
    of entries fit in 64 bits, and whose materialized arrays are the ones
    the properties compute (none was supplied with other contents), the
    reads of [rowptr] and [rowcount] return a pointer array [p] and a
    count array [c] with [p[0] = 0], [p[num_rows] = nnz] and
    [p[i+1] - p[i] = c[i]] for every row [i]; the read of [colcount]
    returns, and every pointer array that a read of [colptr] returns
    stands in the same relations to it over the columns.  The read of
    [colptr] returns when [_colptr] is materialized or [_csr2csc] is
    not. *)
Theorem ptr_count_offsets {V : Type} (st : @State V) :
  consistent (self st) → in_range (self st) → Sorted Z.le (row (self st)) →
  ∃ p c d : list Z,
    (rowptr st).2 = Ok p ∧ (rowcount st).2 = Ok c ∧ (colcount st).2 = Ok d
    ∧ offsets p c (_sparse_size (self st)).1 (Z.of_nat (length (_index (self st))))
    ∧ (∀ q, (colptr st).2 = Ok q →
         offsets q d (_sparse_size (self st)).2 (Z.of_nat (length (_index (self st)))))
    ∧ (is_Some (_colptr (self st)) ∨ _csr2csc (self st) = None →
         ∃ q, (colptr st).2 = Ok q).
Proof.
  intros Hc Hr _.
  exists (computed Krowptr (self st)), (computed Krowcount (self st)),
    (computed Kcolcount (self st)).
  split; [by apply rowptr_value|]. split; [by apply rowcount_value|].
  split; [by apply colcount_value|].
  destruct (colptr_value st Hc Hr) as [Hq|(Hq & Hnone & Hsome)]; split_and!.
  - cbn [computed]. unfold computed_rowptr. cbn [sparse_size_dim].
    rewrite <- length_row.
    apply rowptr_offsets; [apply Hr | by apply in_range_row |].
    rewrite length_row. apply Hr.
  - intros q Hq'.
    assert (q = computed Kcolptr (self st)) as -> by congruence.
    rewrite computed_colptr_rowptr by done. cbn [computed].
    rewrite computed_colcount_differences by done.
    rewrite <- length_col.
    apply rowptr_offsets; [apply Hr | by apply in_range_col |].
    rewrite length_col. apply Hr.
  - eauto.
  - cbn [computed]. unfold computed_rowptr. cbn [sparse_size_dim].
    rewrite <- length_row.
    apply rowptr_offsets; [apply Hr | by apply in_range_row |].
    rewrite length_row. apply Hr.
  - intros q Hq'. congruence.
  - intros [[q Hq']|Hn]; [congruence|].
    rewrite Hn in Hsome. by destruct Hsome.
Qed.

Lemma three_entries_in_range : in_range three_entries.
Proof.
  unfold in_range, three_entries. cbn.
  split_and!; [lia | lia | lia | lia | | lia].
  repeat apply Forall_cons_2; [cbn; lia.. | apply Forall_nil_2].
Qed.

Lemma ptr_count_offsets_witness :
  ∃ p c d : list Z,
    (rowptr (initial_state true three_entries)).2 = Ok p
    ∧ (rowcount (initial_state true three_entries)).2 = Ok c
    ∧ (colcount (initial_state true three_entries)).2 = Ok d
    ∧ offsets p c 2 3
    ∧ (∀ q, (colptr (initial_state true three_entries)).2 = Ok q → offsets q d 2 3)
    ∧ (is_Some (_colptr three_entries) ∨ _csr2csc three_entries = None →
         ∃ q, (colptr (initial_state true three_entries)).2 = Ok q).
Proof.
  apply (ptr_count_offsets (initial_state true three_entries)).
  - apply nothing_materialized_consistent. by intros [].
  - apply three_entries_in_range.
  - cbn. repeat first [apply Sorted_cons | apply Sorted_nil | apply HdRel_cons | apply HdRel_nil];
      lia.
Defined.

(** C6 as stated fails on an instance that was given a pointer array:
    the constructor stores a supplied [rowptr] of the right length as it
    is, and the reads return it and its differences.  With
    [rowptr = [5, 7]] on one entry in a 1 x 1 matrix, [rowptr[0]] is 5
    and [rowptr[num_rows]] is 7, where [nnz] is 1. *)
Lemma supplied_rowptr_is_read_back :
  ∃ (s : SparseStorage Z),
    __init__ [(0, 0)] None (Some (1, 1)) None (Some [5; 7]) None None None None false = Ok s
    ∧ (rowptr (initial_state true s)).2 = Ok [5; 7]
    ∧ (rowcount (initial_state true s)).2 = Ok [2]
    ∧ ¬ offsets [5; 7] [2] 1 1.
Proof.
  eexists. split; [vm_compute; reflexivity|].
  split; [vm_compute; reflexivity|]. split; [vm_compute; reflexivity|].
  intros (_ & _ & H0 & _). discriminate H0.
Qed.

(** ** Coalescing *)

Lemma slice_to_minus_1_cons {A : Type} (a : A) (l : list A) :
  slice_to (-1) (a :: l) = match l with [] => [] | _ => a :: slice_to (-1) l end.
Proof.
  unfold slice_to. simpl. destruct l; simpl; [done|]. by rewrite Nat.sub_0_r.
Qed.

Lemma gt_shifted_ascents (prev : Z) (idx : list Z) :
  torch.gt idx (prev :: slice_to (-1) idx) = ascents prev idx.
Proof.
  unfold torch.gt. revert prev.
  induction idx as [|k idx IH]; intros prev; [done|].
  rewrite slice_to_minus_1_cons. cbn. f_equal.
  destruct idx as [|k' idx]; [done|]. apply IH.
Qed.

Lemma first_mask_ascents (idx : list Z) : first_mask idx = ascents (-1) idx.
Proof. apply gt_shifted_ascents. Qed.

Lemma length_ascents (prev : Z) (idx : list Z) : length (ascents prev idx) = length idx.
Proof. revert prev. induction idx; intros; simpl; [done | by f_equal]. Qed.

Lemma masked_select_fmap {A B : Type} (f : A → B) (x : list A) (mask : list bool) :
  f <$> torch.masked_select x mask = torch.masked_select (f <$> x) mask.
Proof.
  revert mask. induction x as [|a x IH]; intros [|[] mask]; cbn; [done..| |done].
  f_equal. apply IH.
Qed.

(** Strictly increasing keys above [prev]: every entry is an ascent. *)
Lemma ascents_all (prev : Z) (idx : list Z) :
  Sorted Z.lt idx → (∀ k, head idx = Some k → prev < k) →
  torch.all (ascents prev idx) = true.
Proof.
  unfold torch.all. revert prev.
  induction idx as [|k idx IH]; intros prev Hs Hp; [done|].
  cbn. rewrite bool_decide_eq_true_2 by (specialize (Hp k eq_refl); lia).
  apply Sorted_inv in Hs as [Hs Hd]. apply IH; [done|].
  intros k' Hk'. destruct idx; [done|]. injection Hk' as ->.
  by apply HdRel_inv in Hd.
Qed.

(** The converse: a mask without a gap means strictly increasing keys. *)
Lemma all_ascents (prev : Z) (idx : list Z) :
  torch.all (ascents prev idx) = true →
  Sorted Z.lt idx ∧ (∀ k, head idx = Some k → prev < k).
Proof.
  unfold torch.all. revert prev.
  induction idx as [|k idx IH]; intros prev H; [split; [constructor | done]|].
  cbn in H. apply andb_true_iff in H as [H1 H2].
  apply bool_decide_eq_true in H1.
  destruct (IH k H2) as [IH1 IH2].
  split; [|intros ? [= <-]; lia].
  constructor; [done|]. destruct idx; constructor. by apply IH2.
Qed.

(** Among non-decreasing keys, the ascents are strictly increasing. *)
Lemma ascents_of_selected (prev : Z) (idx : list Z) :
  Sorted Z.le idx → (∀ k, head idx = Some k → prev ≤ k) →
  torch.all (ascents prev (torch.masked_select idx (ascents prev idx))) = true.
Proof.
  unfold torch.all. revert prev.
  induction idx as [|k idx IH]; intros prev Hs Hp; [done|].
  apply Sorted_inv in Hs as [Hs Hd].
  assert (Hk : ∀ k', head idx = Some k' → k ≤ k').
  { intros k' Hk'. destruct idx; [done|]. injection Hk' as ->.
    by apply HdRel_inv in Hd. }
  cbn. case_bool_decide as Hgt.
  - cbn. rewrite bool_decide_eq_true_2 by done. by apply IH.
  - assert (prev = k) as -> by (specialize (Hp k eq_refl); lia).
    by apply IH.
Qed.

Lemma sub64_1_inj (a b : Z) :
  - 2 ^ 63 ≤ a < 2 ^ 63 → - 2 ^ 63 ≤ b < 2 ^ 63 → sub64 a 1 = sub64 b 1 → a = b.
Proof.
  unfold sub64, wrap64. intros Ha Hb H.
  assert (E : (a - 1 + 2 ^ 63) `mod` 2 ^ 64 = (b - 1 + 2 ^ 63) `mod` 2 ^ 64) by lia.
  clear H.
  pose proof (Z.div_mod (a - 1 + 2 ^ 63) (2 ^ 64)) as H1.
  pose proof (Z.div_mod (b - 1 + 2 ^ 63) (2 ^ 64)) as H2.
  lia.
Qed.

Section segments.

Context {V : Type}.
Implicit Types (value cur : list V) (mask : list bool).

(** The group ids [mask.cumsum(0) - 1] open a new run exactly at the
    entries that the mask keeps. *)
Lemma length_segments (acc : Z) cur mask value :
  - 2 ^ 63 ≤ acc < 2 ^ 63 → length value = length mask →
  length (torch_scatter.segments (sub64 acc 1) cur
            (tensor_sub_scalar (torch.cumsum_from acc (torch.to_long mask)) 1) value)
  = S (length (torch.masked_select value mask)).
Proof.
  revert acc cur value.
  induction mask as [|b mask IH]; intros acc cur [|v value] Hacc Hlen; try done.
  cbn [torch.to_long fmap list_fmap torch.cumsum_from tensor_sub_scalar
       torch_scatter.segments torch.masked_select].
  change (list_fmap bool Z (λ b : bool, if b then 1 else 0) mask) with (torch.to_long mask).
  change (list_fmap Z Z (λ x, sub64 x 1) ?l) with (tensor_sub_scalar l 1).
  destruct b.
  - destruct (decide (sub64 (add64 acc 1) 1 = sub64 acc 1)) as [E|_].
    + apply sub64_1_inj in E; [|apply wrap64_range | done].
      exfalso. apply (add64_neq acc). by rewrite wrap64_id.
    + cbn [length]. f_equal.
      apply IH; [apply wrap64_range | by injection Hlen].
  - assert (add64 acc 0 = acc) as ->.
    { unfold add64. rewrite Z.add_0_r. by apply wrap64_id. }
    rewrite decide_True by done.
    apply IH; [done | by injection Hlen].
Qed.

Lemma length_segment_csr mask value (reduce : list V → V) :
  length value = S (length mask) →
  length (torch_scatter.segment_csr
            (tensor_sub_scalar (torch.cumsum (torch.to_long (true :: mask))) 1) value reduce)
  = length (torch.masked_select value (true :: mask)).
Proof.
  intros Hlen. destruct value as [|v value]; [done|].
  unfold torch.cumsum.
  cbn [torch.to_long fmap list_fmap torch.cumsum_from tensor_sub_scalar
       torch_scatter.segment_csr torch.masked_select].
  change (list_fmap bool Z (λ b : bool, if b then 1 else 0) mask) with (torch.to_long mask).
  change (list_fmap Z Z (λ x, sub64 x 1) ?l) with (tensor_sub_scalar l 1).
  rewrite length_fmap. cbn [length].
  apply length_segments; [apply wrap64_range | by injection Hlen].
Qed.

Lemma length_masked_select {A B : Type} (x : list A) (y : list B) mask :
  length x = length y →
  length (torch.masked_select x mask) = length (torch.masked_select y mask).
Proof.
  revert x y. induction mask as [|b mask IH]; intros [|a x] [|c y] H; try done.
  injection H as H. destruct b; cbn; [f_equal|]; by apply IH.
Qed.

End segments.

(** [is_coalesced] says that the keys are strictly increasing and start
    above [-1]; on such a storage [coalesce] returns the storage itself. *)
Lemma is_coalesced_keys64 {V : Type} (obj : SparseStorage V) :
  int64 (_sparse_size obj).2 →
  is_coalesced obj = Ok (torch.all (ascents (-1) (keys64 obj))).
Proof.
  intros Hn. unfold is_coalesced. rewrite linear_key_key64 by done.
  cbn [mbind result_bind]. by rewrite first_mask_ascents.
Qed.

Lemma is_coalesced_Ok_inv {V : Type} (obj : SparseStorage V) (b : bool) :
  is_coalesced obj = Ok b →
  int64 (_sparse_size obj).2 ∧ b = torch.all (ascents (-1) (keys64 obj)).
Proof.
  unfold is_coalesced. intros H. apply bind_Ok in H as (idx & Hidx & H).
  apply linear_key_Ok_inv in Hidx as [Hn ->]. split; [done|].
  apply Ok_inj in H. by rewrite first_mask_ascents in H.
Qed.

Lemma is_coalesced_strictly_increasing {V : Type} (obj : SparseStorage V) :
  int64 (_sparse_size obj).2 →
  is_coalesced obj = Ok true
  ↔ Sorted Z.lt (keys64 obj) ∧ (∀ k, head (keys64 obj) = Some k → -1 < k).
Proof.
  intros Hn. rewrite is_coalesced_keys64 by done. split.
  - intros H. apply Ok_inj in H. by apply all_ascents.
  - intros [H1 H2]. f_equal. by apply ascents_all.
Qed.

Lemma coalesce_fast_path {V : Type} (reduce : list V → V) (obj : SparseStorage V) :
  is_coalesced obj = Ok true → coalesce reduce obj = Ok obj.
Proof.
  intros H. apply is_coalesced_Ok_inv in H as [Hn H].
  unfold coalesce. rewrite linear_key_key64 by done. cbn [mbind result_bind].
  rewrite first_mask_ascents. fold (keys64 obj). by rewrite <- H.
Qed.

(** [coalesce] raises [OverflowError] when the number of columns is not
    a 64-bit integer, and so does [is_coalesced]. *)
Lemma coalesce_overflow {V : Type} (reduce : list V → V) (obj : SparseStorage V) :
  ¬ int64 (_sparse_size obj).2 →
  coalesce reduce obj = Raise OverflowError ∧ is_coalesced obj = Raise OverflowError.
Proof.
  intros Hn. unfold coalesce, is_coalesced. by rewrite linear_key_overflow.
Qed.

(** Idempotence in terms of the 64-bit keys. *)
Lemma coalesce_idempotent_keys64 {V : Type} (reduce : list V → V) (obj : SparseStorage V) :
  int64 (_sparse_size obj).2 →
  Sorted Z.le (keys64 obj) →
  Forall (λ k, 0 ≤ k) (keys64 obj) →
  (∀ v, _value obj = Some v → length v = length (_index obj)) →
  ∃ s, coalesce reduce obj = Ok s
       ∧ coalesce reduce s = Ok s
       ∧ is_coalesced s = Ok true
       ∧ _sparse_size s = _sparse_size obj
       ∧ (Sorted Z.lt (keys64 obj) → coalesce reduce obj = Ok obj).
Proof.
  intros Hn Hsorted Hpos Hvalue.
  destruct (torch.all (ascents (-1) (keys64 obj))) eqn:Hall.
  { assert (Hc : is_coalesced obj = Ok true) by (by rewrite is_coalesced_keys64, Hall).
    exists obj. pose proof (coalesce_fast_path reduce obj Hc). done. }
  assert (Hhead : ∀ k, head (keys64 obj) = Some k → -1 ≤ k).
  { intros k Hk. destruct (keys64 obj) as [|k0 ks]; [done|].
    injection Hk as ->. apply Forall_cons in Hpos as [Hk _]. lia. }
  pose proof (ascents_of_selected (-1) (keys64 obj) Hsorted Hhead) as Hsel.
  unfold coalesce at 1 3. rewrite linear_key_key64 by done.
  cbn [mbind result_bind]. rewrite first_mask_ascents. fold (keys64 obj).
  rewrite Hall.
  set (mask := ascents (-1) (keys64 obj)) in *.
  set (index' := torch.masked_select (index obj) mask).
  set (value' := match value obj with
                 | Some value =>
                     Some (torch_scatter.segment_csr
                             (tensor_sub_scalar (torch.cumsum (torch.to_long mask)) 1)
                             value reduce)
                 | None => None
                 end).
  assert (Hlen : lengths_agree index' value' (sparse_size obj) None None None None None None).
  { unfold lengths_agree. split_and!; try done.
    intros v' Hv'. unfold value', value in Hv'.
    destruct (_value obj) as [v|] eqn:Ev; [|done].
    injection Hv' as <-. specialize (Hvalue v eq_refl).
    assert (Hmask : length mask = length (_index obj)).
    { unfold mask, keys64. by rewrite length_ascents, length_fmap. }
    assert (∃ mask', mask = true :: mask') as [mask' Hmask'].
    { unfold mask in *. destruct (keys64 obj) as [|k0 ks]; [done|].
      cbn. rewrite bool_decide_eq_true_2; [by eauto|].
      apply Forall_cons in Hpos as [Hk _]. lia. }
    unfold index', index. clear Hsel index' value'. clearbody mask. subst mask.
    rewrite length_segment_csr.
    - by apply length_masked_select.
    - by rewrite Hvalue, <- Hmask. }
  rewrite (init_unfold index' value' _ (sparse_size obj)) by done.
  cbn [negb mbind result_bind].
  eexists. split; [done|].
  set (s := {| _index := index'; _value := value'; _sparse_size := sparse_size obj;
               _rowcount := None; _rowptr := None; _colcount := None; _colptr := None;
               _csr2csc := None; _csc2csr := None |}).
  assert (Hkey : keys64 s = torch.masked_select (keys64 obj) mask).
  { unfold keys64, s. cbn [_index _sparse_size]. unfold index', index, sparse_size.
    apply masked_select_fmap. }
  assert (Hc : is_coalesced s = Ok true).
  { rewrite is_coalesced_keys64 by done. by rewrite Hkey, Hsel. }
  split_and!; [by apply coalesce_fast_path | done | done |].
  intros Hlt. apply (ascents_all (-1)) in Hlt; [fold mask in Hlt; congruence|].
  intros k Hk. destruct (keys64 obj) as [|k0 ks]; [done|].
  injection Hk as ->. apply Forall_cons in Hpos as [Hk _]. lia.
Qed.

(** C8, as amended.  On every storage whose number of columns is a
    64-bit integer, whose keys [row * num_cols + col] fit in 64 bits, are
    non-negative and in row-major sorted order, and whose value array, if
    any, has one entry per coordinate, [coalesce] returns a storage that
    is coalesced and that a second [coalesce] returns unchanged; and when
    the keys are strictly increasing the first [coalesce] already returns
    the storage it was given. *)
Theorem coalesce_idempotent {V : Type} (reduce : list V → V) (obj : SparseStorage V) :
  int64 (_sparse_size obj).2 →
  keys_fit (_sparse_size obj).2 (_index obj) →
  Sorted Z.le (row_major_key (_sparse_size obj).2 <$> _index obj) →
  Forall (λ k, 0 ≤ k) (row_major_key (_sparse_size obj).2 <$> _index obj) →
  (∀ v, _value obj = Some v → length v = length (_index obj)) →
  ∃ s, coalesce reduce obj = Ok s
       ∧ coalesce reduce s = Ok s
       ∧ is_coalesced s = Ok true
       ∧ (Sorted Z.lt (row_major_key (_sparse_size obj).2 <$> _index obj) →
          coalesce reduce obj = Ok obj).
Proof.
  intros Hn Hfit Hsorted Hpos Hvalue.
  rewrite <- (key64_fit_map _ _ Hfit) in *. fold (keys64 obj) in *.
  destruct (coalesce_idempotent_keys64 reduce obj Hn Hsorted Hpos Hvalue)
    as (s & H1 & H2 & H3 & _ & H4).
  by exists s.
Qed.

Lemma coalesce_idempotent_witness :
  ∃ s, coalesce reduce_add with_duplicate = Ok s
       ∧ coalesce reduce_add s = Ok s
       ∧ is_coalesced s = Ok true
       ∧ (Sorted Z.lt (row_major_key 2 <$> [(0, 1); (0, 1); (1, 0)]) →
          coalesce reduce_add with_duplicate = Ok with_duplicate).
Proof.
  apply (coalesce_idempotent reduce_add with_duplicate).
  - unfold int64. cbn. lia.
  - unfold keys_fit. cbn. repeat apply Forall_cons_2; [cbn; lia.. | apply Forall_nil_2].
  - cbn. repeat first [apply Sorted_cons | apply Sorted_nil | apply HdRel_cons | apply HdRel_nil];
      unfold row_major_key; cbn; lia.
  - cbn. repeat apply Forall_cons_2; [unfold row_major_key; cbn; lia.. | apply Forall_nil_2].
  - intros v [= <-]. reflexivity.
Defined.

(** ** The cache flag *)

Section cache_flag.

Context {V : Type}.
Implicit Types (st : @State V) (key : cache_key).

Lemma stores_nothing_ret {A : Type} (a : A) : stores_nothing (V:=V) (mret a).
Proof. by intros st Hst. Qed.

Lemma stores_nothing_lift {A : Type} (r : result A) : stores_nothing (V:=V) (lift r).
Proof. by intros st Hst. Qed.

Lemma stores_nothing_get_self : stores_nothing (V:=V) get_self.
Proof. by intros st Hst. Qed.

Lemma stores_nothing_record_call key : stores_nothing (V:=V) (record_call key).
Proof. by intros st Hst. Qed.

Lemma stores_nothing_is_cache_enabled : stores_nothing (V:=V) is_cache_enabled.
Proof. by intros st Hst. Qed.

Lemma stores_nothing_bind {A B : Type} (m : M A) (f : A → M B) :
  stores_nothing (V:=V) m → (∀ a, stores_nothing (f a)) → stores_nothing (m ≫= f).
Proof.
  intros Hm Hf st Hst. unfold mbind, M_bind.
  destruct (Hm st Hst) as [H1 H2].
  destruct (m st) as [st1 [a|e]]; cbn in *; [|done].
  destruct (Hf a st1 H2) as [H3 H4]. split; congruence.
Qed.

(** The gate of [cached_property]: with the cache disabled the computed
    value is returned and not stored. *)
Lemma stores_nothing_cached_property key (func : M (list Z)) :
  stores_nothing (V:=V) func → stores_nothing (cached_property key func).
Proof.
  intros Hfunc. unfold cached_property.
  apply stores_nothing_bind; [apply stores_nothing_get_self|]. intros obj.
  destruct (getattr key obj); [apply stores_nothing_ret|].
  apply stores_nothing_bind; [apply stores_nothing_record_call|]. intros _.
  apply stores_nothing_bind; [done|]. intros value.
  intros st Hst. unfold mbind, M_bind, is_cache_enabled, mret, M_ret.
  by rewrite Hst.
Qed.

Lemma stores_nothing_property key : stores_nothing (V:=V) (property key).
Proof.
  destruct key; cbn [property];
    unfold rowcount, rowptr, colcount, colptr, csr2csc, csc2csr;
    repeat first
      [ apply stores_nothing_cached_property
      | apply stores_nothing_ret
      | apply stores_nothing_lift
      | apply stores_nothing_get_self
      | apply stores_nothing_bind; [|intros ?]
      | match goal with
        | |- stores_nothing (match ?x with _ => _ end) => destruct x
        | |- stores_nothing (if ?x then _ else _) => destruct x
        end ].
Qed.

End cache_flag.

Ltac break_match :=
  match goal with
  | |- context [match ?x with Some _ => _ | None => _ end] => destruct x eqn:?
  | |- context [match ?x with Ok _ => _ | Raise _ => _ end] => destruct x eqn:?
  | |- context [match ?x with [] => _ | _ :: _ => _ end] => destruct x eqn:?
  | |- context [if ?x then _ else _] => destruct x eqn:?
  end.

Section cache_values.

Context {V : Type}.
Implicit Types (st : @State V) (key : cache_key).

(** The flag gates the write of the cache, not the computation: a read
    returns the same value with the cache disabled as with it enabled. *)
Lemma property_value_flag key st :
  (property key (with_flag false st)).2 = (property key (with_flag true st)).2.
Proof.
  destruct key; unfold with_flag; run_M;
    repeat (break_match; cbn [self __cache__ getattr fst snd]); try done.
Qed.

(** A read of a materialized property is the attribute, and the state
    is untouched. *)
Lemma property_materialized key st (t : list Z) :
  getattr key (self st) = Some t → property key st = (st, Ok t).
Proof.
  intros H. destruct key; run_M; cbn [getattr] in H; by rewrite H.
Qed.

(** A read of a property that is not materialized runs its function
    once. *)
Lemma property_computes key st :
  getattr key (self st) = None →
  count_calls key (property key st).1 = S (count_calls key st).
Proof.
  intros H. unfold count_calls.
  destruct key; run_M; cbn [getattr] in H; rewrite H;
    repeat (break_match; cbn [self __cache__ calls getattr fst snd]);
    by rewrite ?filter_cons.
Qed.

End cache_values.

(** ** The guard *)

Section guard.

Context {V : Type}.
Implicit Types (st : @State V) (g : nat).

Lemma no_cache_enter_spec g st :
  no_cache_enter g st
  = ({| __cache__ := false; self := self st;
        prev := <[g := __cache__ st]> (prev st); calls := calls st |}, Ok ()).
Proof. done. Qed.

Lemma no_cache_exit_spec g st (p : bool) :
  prev st !! g = Some p → no_cache_exit g st = (with_flag p st, Ok ()).
Proof.
  intros H. unfold no_cache_exit, get_prev, set_cache_enabled, mbind, M_bind.
  by rewrite H.
Qed.

(** [with g: body] runs the body with the cache disabled and restores
    the flag that was set on entry, whatever the body returns or raises,
    when the body does not enter [g] again. *)
Lemma with_spec {A : Type} g (body : @M V A) st :
  keeps_prev g body →
  with_ g body st
  = (with_flag (__cache__ st) (body (no_cache_enter g st).1).1,
     (body (no_cache_enter g st).1).2).
Proof.
  intros Hbody. unfold with_. rewrite no_cache_enter_spec. cbn [fst].
  specialize (Hbody {| __cache__ := false; self := self st;
                       prev := <[g := __cache__ st]> (prev st); calls := calls st |}).
  cbn [prev] in Hbody. rewrite lookup_insert_eq in Hbody.
  destruct (body _) as [st2 r]. cbn [fst snd] in *.
  by rewrite (no_cache_exit_spec _ _ _ Hbody).
Qed.

Lemma with_restores {A : Type} g (body : @M V A) st :
  keeps_prev g body → __cache__ (with_ g body st).1 = __cache__ st.
Proof. intros H. by rewrite with_spec. Qed.

Lemma keeps_prev_with {A : Type} g g' (body : @M V A) :
  g ≠ g' → keeps_prev g body → keeps_prev g' body → keeps_prev g (with_ g' body).
Proof.
  intros Hne Hg Hg' st. rewrite with_spec by done. cbn [fst with_flag prev].
  rewrite Hg, no_cache_enter_spec. cbn [fst prev].
  by rewrite lookup_insert_ne.
Qed.

(** Guards of distinct guard objects nest: each restores the flag it
    found. *)
Lemma with_nested_restores {A : Type} g1 g2 (body : @M V A) st :
  g1 ≠ g2 → keeps_prev g1 body → keeps_prev g2 body →
  __cache__ (with_ g1 (with_ g2 body) st).1 = __cache__ st.
Proof.
  intros Hne H1 H2. apply with_restores. by apply keeps_prev_with.
Qed.

(** The reads of the properties do not touch any guard object. *)
Lemma property_prev key st : prev (property key st).1 = prev st.
Proof.
  destruct key; run_M;
    repeat (break_match; cbn [self __cache__ prev getattr fst snd]); done.
Qed.

Lemma keeps_prev_property key g : keeps_prev (V:=V) g (property key).
Proof. intros st. by rewrite property_prev. Qed.

End guard.

(** One guard object entered a second time inside its own [with] block
    forgets the flag it had saved: after both blocks are left the cache
    stays disabled. *)
Lemma with_same_guard_forgets :
  __cache__ (with_ 0 (with_ 0 (mret ())) (initial_state true three_entries)).1 = false.
Proof. reflexivity. Qed.

(** C9 as stated fails for a read of a property that is materialized.
    With the cache enabled [rowptr] is read once, which runs the pointer
    construction and stores its result; the two reads that follow inside
    a [no_cache] block return the stored array, and the count of the runs
    of the pointer construction stays at one. *)
Lemma guarded_reads_of_materialized_do_not_recompute :
  ∃ st1 st2 : @State Z,
    rowptr (initial_state true three_entries) = (st1, Ok [0; 2; 3])
    ∧ count_calls Krowptr st1 = 1%nat
    ∧ with_ 0 (_ ← rowptr; rowptr) st1 = (st2, Ok [0; 2; 3])
    ∧ count_calls Krowptr st2 = 1%nat
    ∧ count_calls Krowptr st2 ≠ (count_calls Krowptr st1 + 2)%nat.
Proof.
  eexists _, _. split; [vm_compute; reflexivity|].
  split; [reflexivity|].
  split; [vm_compute; reflexivity|].
  split; [reflexivity | vm_compute; lia].
Qed.

(** C9, as amended.  While the cache flag is disabled, a read of a
    derived property stores nothing on the instance and returns the value
    it returns with the cache enabled; a property that is not materialized
    is recomputed by each of two consecutive reads, a materialized one is
    returned as it is.  The guard disables the flag on entry and saves the
    flag it found; on exit it restores that flag, and guards of distinct
    guard objects nest. *)
Theorem disabled_cache_reads {V : Type} (key : cache_key) (g1 g2 : nat) (st : @State V) :
  __cache__ st = false → g1 ≠ g2 →
  self (property key st).1 = self st
  ∧ __cache__ (property key st).1 = false
  ∧ (property key st).2 = (property key (with_flag true st)).2
  ∧ (getattr key (self st) = None →
       count_calls key (property key (property key st).1).1 = S (S (count_calls key st)))
  ∧ (∀ t, getattr key (self st) = Some t → property key st = (st, Ok t))
  ∧ (∀ st0 : @State V,
       no_cache_enter g1 st0
       = ({| __cache__ := false; self := self st0;
             prev := <[g1 := __cache__ st0]> (prev st0); calls := calls st0 |}, Ok ()))
  ∧ (∀ (st0 : @State V) (p : bool),
       prev st0 !! g1 = Some p → no_cache_exit g1 st0 = (with_flag p st0, Ok ()))
  ∧ (∀ st0 : @State V,
       __cache__ (with_ g1 (property key) st0).1 = __cache__ st0
       ∧ (with_ g1 (property key) st0).2 = (property key (with_flag false st0)).2)
  ∧ (∀ st0 : @State V,
       __cache__ (with_ g1 (with_ g2 (property key)) st0).1 = __cache__ st0).
Proof.
  intros Hflag Hne.
  destruct (stores_nothing_property key st Hflag) as [Hself Hoff].
  split_and!; [done | done | | | | | | |].
  - destruct st as [flag obj pv cs]. cbn in Hflag. subst flag.
    apply (property_value_flag key (mkState false obj pv cs)).
  - intros Hnone. rewrite !property_computes; [done..|].
    by rewrite Hself.
  - intros t. apply property_materialized.
  - intros st0. apply no_cache_enter_spec.
  - intros st0 p. apply no_cache_exit_spec.
  - intros st0. rewrite with_spec by apply keeps_prev_property.
    split; [done|]. cbn [snd]. rewrite no_cache_enter_spec. cbn [fst].
    destruct key; unfold with_flag; run_M;
      repeat (break_match; cbn [self __cache__ getattr fst snd]); done.
  - intros st0. apply with_nested_restores; [done|apply keeps_prev_property..].
Qed.

Lemma disabled_cache_reads_witness :
  self (rowptr (initial_state false three_entries)).1 = three_entries
  ∧ __cache__ (rowptr (initial_state false three_entries)).1 = false
  ∧ count_calls Krowptr
      (rowptr (rowptr (initial_state false three_entries)).1).1 = 2%nat.
Proof.
  destruct (disabled_cache_reads Krowptr 0 1 (initial_state false three_entries))
    as (H1 & H2 & _ & H4 & _); [reflexivity | lia |].
  split_and!; [exact H1 | exact H2 | exact (H4 eq_refl)].
Defined.

(** ** The materialized arrays stay the computed ones *)

Section cache_invariant_proofs.

Context {V : Type}.
Implicit Types (st : @State V) (obj : SparseStorage V) (key : cache_key).

Lemma computed_same_data key obj obj' :
  _index obj' = _index obj → _sparse_size obj' = _sparse_size obj →
  computed key obj' = computed key obj.
Proof.
  intros Hi Hs.
  destruct key; cbn [computed];
    unfold computed_rowptr, computed_colcount, computed_csr2csc,
      row, col, sparse_size_dim; by rewrite Hi, Hs.
Qed.

Lemma consistent_setattr key obj (v : list Z) :
  consistent obj → v = computed key obj → consistent (setattr key (Some v) obj).
Proof.
  intros Hc -> key' t Ht.
  rewrite (computed_same_data key' obj (setattr key (Some (computed key obj)) obj)) by done.
  destruct key, key';
    cbn [getattr setattr _rowcount _rowptr _colcount _colptr _csr2csc _csc2csr] in Ht;
    case_decide; first [ done | by injection Ht | by apply Hc ].
Qed.

Lemma in_range_setattr key obj (v : option (list Z)) :
  in_range obj → in_range (setattr key v obj).
Proof. done. Qed.

Lemma reads_computed_cached_property key (func : M (list Z)) :
  reads_computed key func → reads_computed (V:=V) key (cached_property key func).
Proof.
  intros Hfunc st [Hc Hr]. unfold cached_property, get_self, mbind, M_bind.
  destruct (getattr key (self st)) as [t|] eqn:Et.
  { split_and!; [done..|]. intros v [= <-]. by apply Hc. }
  unfold record_call.
  set (st0 := {| __cache__ := __cache__ st; self := self st; prev := prev st;
                 calls := key :: calls st |}).
  destruct (Hfunc st0) as ([Hc1 Hr1] & Hi & Hs & Hv); [done|].
  destruct (func st0) as [st1 [v|e]]; cbn [fst snd] in *; [|done].
  specialize (Hv v eq_refl). subst v.
  unfold is_cache_enabled, set_self, mret, M_ret.
  destruct (__cache__ st1); cbn [fst snd self].
  - split_and!; [|done..|by intros ? [= <-]].
    split; [|by apply in_range_setattr].
    apply consistent_setattr; [done|].
    symmetry. by apply computed_same_data.
  - split_and!; [done..|]. by intros ? [= <-].
Qed.

Lemma reads_computed_rowptr : reads_computed (V:=V) Krowptr rowptr.
Proof.
  apply reads_computed_cached_property. intros st Hst.
  split_and!; [done..|]. by intros v [= <-].
Qed.

Lemma reads_computed_rowcount : reads_computed (V:=V) Krowcount rowcount.
Proof.
  apply reads_computed_cached_property. intros st Hst.
  unfold mbind, M_bind.
  destruct (reads_computed_rowptr st Hst) as (Hv1 & Hi & Hs & Hv).
  destruct (rowptr st) as [st1 [p|e]]; cbn [fst snd] in *; [|done].
  split_and!; [done..|]. intros v [= <-]. by rewrite (Hv p eq_refl).
Qed.

Lemma reads_computed_csr2csc : reads_computed (V:=V) Kcsr2csc csr2csc.
Proof.
  apply reads_computed_cached_property. intros st Hst.
  unfold get_self, mbind, M_bind, lift, mret, M_ret.
  destruct (scalar_mul _ _) as [scaled|e] eqn:E; cbn [fst snd]; [|done].
  apply scalar_mul_Ok_inv in E as [_ ->].
  split_and!; [done..|]. intros v Hv. apply Ok_inj in Hv. subst v.
  cbn [computed]. unfold computed_csr2csc, col, row.
  by rewrite tensor_add_col_major_key64.
Qed.

Lemma reads_computed_csc2csr : reads_computed (V:=V) Kcsc2csr csc2csr.
Proof.
  apply reads_computed_cached_property. intros st Hst.
  unfold mbind, M_bind.
  destruct (reads_computed_csr2csc st Hst) as (Hv1 & Hi & Hs & Hv).
  destruct (csr2csc st) as [st1 [p|e]]; cbn [fst snd] in *; [|done].
  split_and!; [done..|]. intros v [= <-]. by rewrite (Hv p eq_refl).
Qed.

Lemma reads_computed_colcount : reads_computed (V:=V) Kcolcount colcount.
Proof.
  apply reads_computed_cached_property. intros st [Hc Hr].
  unfold get_self, mbind, M_bind, lift, mret, M_ret.
  destruct (_colptr (self st)) as [q|] eqn:Eq; cbn [fst snd].
  - split_and!; [done..|]. intros v Hv. apply Ok_inj in Hv. subst v.
    rewrite (Hc Kcolptr q Eq), computed_colptr_rowptr by done.
    by rewrite <- computed_colcount_differences.
  - split_and!; [done..|]. rewrite scatter_add_col by done. by intros v [= <-].
Qed.

Lemma reads_computed_colptr : reads_computed (V:=V) Kcolptr colptr.
Proof.
  apply reads_computed_cached_property. intros st [Hc Hr].
  unfold get_self, mbind, M_bind, lift, mret, M_ret.
  assert (Hcond : ∀ t, _csr2csc (self st) = Some t → torch.is_nonzero t ≠ Ok true).
  { intros [|x [|y t]] Et; [done| |done].
    pose proof (Hc Kcsr2csc _ Et) as Hx. cbn [computed] in Hx.
    unfold computed_csr2csc in Hx.
    assert (length (_index (self st)) = 1%nat) as Hlen.
    { apply (f_equal length) in Hx. rewrite argsort_length, length_fmap in Hx.
      simpl in Hx. lia. }
    revert Hx.
    destruct (_index (self st)) as [|[r c] [|]]; try done.
    cbn [fmap list_fmap].
    rewrite argsort_singleton. intros [= ->]. cbn.
    by rewrite bool_decide_eq_false_2 by lia. }
  assert (Helse :
    let m := (λ st0 : @State V,
                let '(st1, r) := colcount st0 in
                match r with
                | Ok a => (st1, Ok (torch.cat (torch.new_zeros 1) (torch.cumsum a)))
                | Raise e => (st1, Raise e)
                end) in
    valid_state (m st).1
    ∧ _index (self (m st).1) = _index (self st)
    ∧ _sparse_size (self (m st).1) = _sparse_size (self st)
    ∧ ∀ v, (m st).2 = Ok v → v = computed Kcolptr (self st)).
  { cbv zeta.
    destruct (reads_computed_colcount st) as (Hv1 & Hi & Hs & Hv); [done|].
    destruct (colcount st) as [st1 [d|e]]; cbn [fst snd] in *; [|done].
    split_and!; [done..|]. intros v [= <-]. by rewrite (Hv d eq_refl). }
  cbv zeta in Helse.
  destruct (_csr2csc (self st)) as [t|] eqn:Et; [|exact Helse].
  specialize (Hcond t eq_refl).
  destruct (torch.is_nonzero t) as [[]|e]; [done | exact Helse | done].
Qed.

(** Every read of a property keeps the state valid and returns, if it
    returns, the computed array. *)
Lemma reads_computed_property key : reads_computed (V:=V) key (property key).
Proof.
  destruct key; cbn [property];
    auto using reads_computed_rowptr, reads_computed_rowcount, reads_computed_csr2csc,
      reads_computed_csc2csr, reads_computed_colcount, reads_computed_colptr.
Qed.

(** So does [fill_cache_]. *)
Lemma fill_cache_valid (args : list cache_key) st :
  valid_state st → valid_state (fill_cache_ args st).1.
Proof.
  unfold fill_cache_. generalize (args_or_cache_keys args). clear args.
  intros args. revert st.
  induction args as [|arg args IH]; intros st Hst; [done|].
  cbn [read_each]. unfold mbind, M_bind.
  destruct (reads_computed_property arg st Hst) as (Hv & _).
  destruct (property arg st) as [st1 [v|e]]; cbn [fst] in *; [|done].
  by apply IH.
Qed.

(** An instance built by the constructor without derived arrays has
    nothing materialized, so its materialized arrays are the computed
    ones. *)
Lemma init_consistent (index : list (Z * Z)) (value : option (list V))
    (sparse_size : option (Z * Z)) (is_sorted : bool) (s : SparseStorage V) :
  __init__ index value sparse_size None None None None None None is_sorted = Ok s →
  consistent s.
Proof.
  unfold __init__. intros H.
  apply bind_Ok in H as ([] & _ & H).
  apply bind_Ok in H as (size & _ & H).
  cbn [assert_optional mbind result_bind] in H.
  apply bind_Ok in H as ([[[index' value'] p] q] & Hsort & H).
  injection H as <-.
  apply nothing_materialized_consistent.
  assert (p = None ∧ q = None) as [-> ->]; [|by intros []].
  destruct (negb is_sorted); [|by injection Hsort].
  apply bind_Ok in Hsort as (scaled & _ & Hsort).
  destruct (torch.any _); [|by injection Hsort].
  apply bind_Ok in Hsort as (i' & _ & Hsort).
  apply bind_Ok in Hsort as (v' & _ & Hsort).
  by injection Hsort.
Qed.

End cache_invariant_proofs.

(** ** Coalescing needs the order *)

(** On an index that is not in row-major order, stored under the hint
    [is_sorted = True], a second [coalesce] removes a further entry. *)
Lemma coalesce_unsorted_not_idempotent :
  ∃ s s1 s2 : SparseStorage Z,
    __init__ [(1, 1); (0, 1); (1, 0)] None (Some (2, 2))
      None None None None None None true = Ok s
    ∧ coalesce reduce_add s = Ok s1 ∧ _index s1 = [(1, 1); (1, 0)]
    ∧ coalesce reduce_add s1 = Ok s2 ∧ _index s2 = [(1, 1)]
    ∧ coalesce reduce_add s1 ≠ Ok s1.
Proof.
  eexists _, _, _. split; [reflexivity|].
  split; [vm_compute; reflexivity|]. split; [reflexivity|].
  split; [vm_compute; reflexivity|]. split; [reflexivity|].
  vm_compute. congruence.
Qed.

(** * Further properties of the constructor *)

Lemma assert_optional_inv {A : Type} (src : option A) (check : A → bool) :
  assert_optional src check = Ok () → ∀ x, src = Some x → check x = true.
Proof.
  intros H x ->. simpl in H. unfold assert in H. by destruct (check x).
Qed.

Lemma index_select_length {A : Type} (x : list A) (perm : list Z) (x' : list A) :
  torch.index_select x perm = Ok x' → length x' = length perm.
Proof.
  revert x'. induction perm as [|i perm IH]; intros x' H; cbn in H.
  - by injection H as <-.
  - apply bind_Ok in H as (a & _ & H). apply bind_Ok in H as (rest & Hrest & H).
    injection H as <-. cbn. f_equal. by apply IH.
Qed.

(** The test before the sort is the test that the keys, preceded by
    zero, are non-decreasing. *)
Lemma any_descent_false (prev : Z) (idx : list Z) :
  torch.any (torch.lt idx (torch.cat [prev] (slice_to (-1) idx))) = false
  ↔ Sorted Z.le (prev :: idx).
Proof.
  split.
  - intros H. apply no_descent_Sorted in H as [H1 H2].
    constructor; [done|]. destruct idx; constructor. by apply H2.
  - unfold torch.any, torch.lt, torch.cat. cbn [app]. revert prev.
    induction idx as [|k idx IH]; intros prev H; [done|].
    rewrite slice_to_minus_1_cons.
    apply Sorted_inv in H as [Hs Hd]. apply HdRel_inv in Hd.
    specialize (IH k Hs). cbn.
    rewrite bool_decide_eq_false_2 by lia. cbn.
    destruct idx; [done|]. apply IH.
Qed.

Section constructor_more.

Context {V : Type}.
Implicit Types (index : list (Z * Z)) (value : option (list V)).

(** What a call of the constructor that returns has checked, and what
    the instance holds. *)
Lemma init_Ok_inv index value sparse_size
    rowcount rowptr colcount colptr csr2csc csc2csr is_sorted (s : SparseStorage V) :
  __init__ index value sparse_size rowcount rowptr colcount colptr csr2csc csc2csr is_sorted
  = Ok s →
  ∃ size,
    size_of index sparse_size size
    ∧ lengths_agree index value size rowcount rowptr colcount colptr csr2csc csc2csr
    ∧ _sparse_size s = size
    ∧ _rowcount s = rowcount ∧ _rowptr s = rowptr
    ∧ _colcount s = colcount ∧ _colptr s = colptr
    ∧ length (_index s) = length index
    ∧ (∀ v', _value s = Some v' → length v' = length index)
    ∧ (_index s = index ∧ _value s = value
       ∧ _csr2csc s = csr2csc ∧ _csc2csr s = csc2csr
       ∨ _csr2csc s = None ∧ _csc2csr s = None)
    ∧ (is_sorted = false → int64 size.2).
Proof.
  unfold __init__. intros H.
  apply bind_Ok in H as ([] & H0 & H).
  apply bind_Ok in H as (size & Hsize & H).
  apply bind_Ok in H as ([] & H1 & H).
  apply bind_Ok in H as ([] & H2 & H).
  apply bind_Ok in H as ([] & H3 & H).
  apply bind_Ok in H as ([] & H4 & H).
  apply bind_Ok in H as ([] & H5 & H).
  apply bind_Ok in H as ([] & H6 & H).
  apply bind_Ok in H as ([[[index' value'] p] q] & Hsort & H).
  injection H as <-. cbn [_index _value _sparse_size _rowcount _rowptr _colcount
                          _colptr _csr2csc _csc2csr].
  exists size.
  assert (Hlen : lengths_agree index value size rowcount rowptr colcount colptr csr2csc csc2csr).
  { unfold lengths_agree. split_and!; intros t Ht.
    - pose proof (assert_optional_inv _ _ H0 _ Ht) as E. by apply bool_decide_eq_true_1 in E.
    - pose proof (assert_optional_inv _ _ H1 _ Ht) as E. by apply bool_decide_eq_true_1 in E.
    - pose proof (assert_optional_inv _ _ H2 _ Ht) as E. by apply bool_decide_eq_true_1 in E.
    - pose proof (assert_optional_inv _ _ H3 _ Ht) as E. by apply bool_decide_eq_true_1 in E.
    - pose proof (assert_optional_inv _ _ H4 _ Ht) as E. by apply bool_decide_eq_true_1 in E.
    - pose proof (assert_optional_inv _ _ H5 _ Ht) as E. by apply bool_decide_eq_true_1 in E.
    - pose proof (assert_optional_inv _ _ H6 _ Ht) as E. by apply bool_decide_eq_true_1 in E. }
  split; [by destruct sparse_size; simpl in *; congruence|].
  split; [done|]. split_and!; try done.
  - destruct (negb is_sorted); [|by injection Hsort as <-].
    apply bind_Ok in Hsort as (scaled & Hsc & Hsort).
    apply scalar_mul_Ok_inv in Hsc as [_ ->].
    destruct (torch.any _); [|by injection Hsort as <-].
    apply bind_Ok in Hsort as (i' & Hi' & Hsort).
    apply bind_Ok in Hsort as (v' & _ & Hsort). injection Hsort as <-.
    apply index_select_length in Hi'. rewrite Hi', argsort_length.
    unfold tensor_add, row_of, col_of.
    rewrite length_zip_with, !length_fmap. lia.
  - intros v' ->.
    destruct (negb is_sorted); [|injection Hsort as _ Hv _ _; by apply Hlen].
    apply bind_Ok in Hsort as (scaled & Hsc & Hsort).
    apply scalar_mul_Ok_inv in Hsc as [_ ->].
    destruct (torch.any _); [|injection Hsort as _ Hv _ _; by apply Hlen].
    apply bind_Ok in Hsort as (i' & Hi' & Hsort).
    apply bind_Ok in Hsort as (v0 & Hv0 & Hsort). injection Hsort as _ ->.
    destruct value as [v|]; [|done].
    apply bind_Ok in Hv0 as (v1 & Hv1 & Hv0). injection Hv0 as <-.
    apply index_select_length in Hv1. rewrite Hv1, argsort_length.
    unfold tensor_add, row_of, col_of.
    rewrite length_zip_with, !length_fmap. lia.
  - destruct (negb is_sorted); [|injection Hsort as <- <- <- <-; by left].
    apply bind_Ok in Hsort as (scaled & Hsc & Hsort).
    destruct (torch.any _); [|injection Hsort as <- <- <- <-; by left].
    apply bind_Ok in Hsort as (i' & Hi' & Hsort).
    apply bind_Ok in Hsort as (v0 & Hv0 & Hsort). injection Hsort as _ _ <- <-.
    by right.
  - intros ->. cbn [negb] in Hsort.
    apply bind_Ok in Hsort as (scaled & Hsc & Hsort).
    by apply scalar_mul_Ok_inv in Hsc as [Hn _].
Qed.

End constructor_more.

Section constructor_branches.

Context {V : Type}.
Implicit Types (index : list (Z * Z)) (value : option (list V)).

(** The branch of the constructor that sorts. *)
Lemma init_sort_branch index value sparse_size size
    rowcount rowptr colcount colptr csr2csc csc2csr :
  size_of index sparse_size size →
  lengths_agree index value size rowcount rowptr colcount colptr csr2csc csc2csr →
  int64 size.2 →
  ¬ Sorted Z.le (0 :: (key64 size.2 <$> index)) →
  ∃ index' value',
    __init__ index value sparse_size rowcount rowptr colcount colptr csr2csc csc2csr false
    = Ok {| _index := index'; _value := value'; _sparse_size := size;
            _rowcount := rowcount; _rowptr := rowptr;
            _colcount := colcount; _colptr := colptr;
            _csr2csc := None; _csc2csr := None |}
    ∧ index' ≡ₚ index
    ∧ Sorted Z.le (key64 size.2 <$> index').
Proof.
  intros Hsize Hlen Hint Hns.
  rewrite (init_unfold _ _ _ size) by done.
  cbn [negb]. rewrite scalar_mul_Ok by done. cbn [mbind result_bind].
  rewrite tensor_add_key64. cbv zeta.
  change (torch.new_zeros 1) with [0].
  destruct (torch.any _) eqn:Hany; [|by apply any_descent_false in Hany].
  destruct (argsort_spec (key64 size.2 <$> index)) as (perm & ks & Hperm & Hp & Hks & Hsorted).
  rewrite Hperm. rewrite length_fmap in Hp.
  destruct (index_select_Permutation index perm Hp) as (index' & Hsel & Hindex' & Hpi).
  rewrite Hsel. cbn [mbind result_bind].
  assert (Hkeys : key64 size.2 <$> index' = ks).
  { apply (Forall2_lookup_map (key64 size.2)) in Hindex'.
    by apply (Forall2_lookup_inj _ _ _ _ Hindex' Hks). }
  destruct value as [v|].
  - destruct Hlen as (Hv & _). specialize (Hv v eq_refl).
    assert (Hpv : perm ≡ₚ seq 0 (length v)) by (by rewrite Hv).
    destruct (index_select_Permutation v perm Hpv) as (v' & Hselv & _).
    rewrite Hselv. cbn [mbind result_bind].
    eexists _, _. split; [done|]. split; [done|]. by rewrite Hkeys.
  - cbn [mbind result_bind].
    eexists _, _. split; [done|]. split; [done|]. by rewrite Hkeys.
Qed.


End constructor_branches.


(** X2.  Every instance that the constructor returns is well formed:
    the value has one entry per coordinate, the count and pointer arrays
    have the lengths of the sparse size, the permutations have one entry
    per coordinate. *)
Theorem init_well_formed {V : Type} (index : list (Z * Z)) (value : option (list V))
    (sparse_size : option (Z * Z))
    (rowcount rowptr colcount colptr csr2csc csc2csr : option (list Z)) (is_sorted : bool)
    (s : SparseStorage V) :
  __init__ index value sparse_size rowcount rowptr colcount colptr csr2csc csc2csr is_sorted
  = Ok s →
  well_formed s ∧ length (_index s) = length index.
Proof.
  intros Hs.
  apply init_Ok_inv in Hs
    as (size & _ & Hlen & E0 & E1 & E2 & E3 & E4 & Hi & Hv & Hpq & _).
  split; [|done].
  destruct Hlen as (_ & H1 & H2 & H3 & H4 & H5 & H6).
  unfold well_formed, lengths_agree. rewrite Hi, E0, E1, E2, E3, E4.
  split_and!; try done.
  - by destruct Hpq as [(_ & _ & -> & _)|[-> _]].
  - by destruct Hpq as [(_ & _ & _ & ->)|[_ ->]].
Qed.

Lemma init_well_formed_witness :
  ∃ s : SparseStorage Z,
    __init__ unsorted_index (Some [10; 20]) None None None None None None None false = Ok s
    ∧ well_formed s ∧ length (_index s) = length unsorted_index.
Proof.
  eexists. split; [vm_compute; reflexivity|].
  apply (init_well_formed unsorted_index (Some [10; 20]) None
           None None None None None None false).
  vm_compute. reflexivity.
Defined.

(** X3.  With [is_sorted] false and a number of columns that is a
    64-bit integer, an index whose keys are non-negative at the start and
    non-decreasing is not sorted again: the instance holds the index, the
    value and every supplied derived array as given, the permutations
    included. *)
Theorem init_sorted_input_kept {V : Type} (index : list (Z * Z)) (value : option (list V))
    (sparse_size : option (Z * Z)) (size : Z * Z)
    (rowcount rowptr colcount colptr csr2csc csc2csr : option (list Z)) :
  size_of index sparse_size size →
  lengths_agree index value size rowcount rowptr colcount colptr csr2csc csc2csr →
  int64 size.2 →
  Sorted Z.le (0 :: (key64 size.2 <$> index)) →
  __init__ index value sparse_size rowcount rowptr colcount colptr csr2csc csc2csr false
  = Ok {| _index := index; _value := value; _sparse_size := size;
          _rowcount := rowcount; _rowptr := rowptr;
          _colcount := colcount; _colptr := colptr;
          _csr2csc := csr2csc; _csc2csr := csc2csr |}.
Proof.
  intros Hsize Hlen Hint Hsorted.
  rewrite (init_unfold _ _ _ size) by done.
  cbn [negb]. rewrite scalar_mul_Ok by done. cbn [mbind result_bind].
  rewrite tensor_add_key64. cbv zeta.
  change (torch.new_zeros 1) with [0].
  apply any_descent_false in Hsorted. by rewrite Hsorted.
Qed.

Lemma init_sorted_input_kept_witness :
  __init__ (V:=Z) [(0, 1); (1, 0)] (Some [10; 20]) (Some (2, 2))
    None None None None (Some [1; 0]) (Some [1; 0]) false
  = Ok {| _index := [(0, 1); (1, 0)]; _value := Some [10; 20]; _sparse_size := (2, 2);
          _rowcount := None; _rowptr := None; _colcount := None; _colptr := None;
          _csr2csc := Some [1; 0]; _csc2csr := Some [1; 0] |}.
Proof.
  apply (init_sorted_input_kept [(0, 1); (1, 0)] (Some [10; 20]) (Some (2, 2)) (2, 2)).
  - reflexivity.
  - unfold lengths_agree. split_and!; intros t [= <-]; reflexivity.
  - unfold int64. cbn. lia.
  - repeat constructor; vm_compute; congruence.
Defined.

(** X4.  With [is_sorted] false and a number of columns that is a
    64-bit integer, an index whose keys are not non-decreasing from zero
    on is sorted: the stored index is a rearrangement of the given one
    along which the keys are non-decreasing.  The instance forgets the
    supplied permutations [csr2csc] and [csc2csr]; the supplied count and
    pointer arrays are kept as they are. *)
Theorem init_unsorted_drops_permutations {V : Type} (index : list (Z * Z))
    (value : option (list V)) (sparse_size : option (Z * Z)) (size : Z * Z)
    (rowcount rowptr colcount colptr csr2csc csc2csr : option (list Z)) :
  size_of index sparse_size size →
  lengths_agree index value size rowcount rowptr colcount colptr csr2csc csc2csr →
  int64 size.2 →
  ¬ Sorted Z.le (0 :: (key64 size.2 <$> index)) →
  ∃ s, __init__ index value sparse_size rowcount rowptr colcount colptr csr2csc csc2csr false
       = Ok s
       ∧ _csr2csc s = None ∧ _csc2csr s = None
       ∧ _rowcount s = rowcount ∧ _rowptr s = rowptr
       ∧ _colcount s = colcount ∧ _colptr s = colptr
       ∧ _index s ≡ₚ index
       ∧ Sorted Z.le (key64 size.2 <$> _index s).
Proof.
  intros Hsize Hlen Hint Hns.
  destruct (init_sort_branch _ _ _ _ _ _ _ _ _ _ Hsize Hlen Hint Hns)
    as (index' & value' & Hs & Hp & Hsorted).
  eexists. split; [exact Hs|]. by split_and!.
Qed.

Lemma init_unsorted_drops_permutations_witness :
  ∃ s, __init__ (V:=Z) unsorted_index None (Some (2, 2))
         (Some [1; 1]) (Some [0; 1; 2]) None None (Some [0; 1]) (Some [0; 1]) false = Ok s
       ∧ _csr2csc s = None ∧ _csc2csr s = None
       ∧ _rowcount s = Some [1; 1] ∧ _rowptr s = Some [0; 1; 2]
       ∧ _colcount s = None ∧ _colptr s = None
       ∧ _index s ≡ₚ unsorted_index
       ∧ Sorted Z.le (key64 2 <$> _index s).
Proof.
  apply (init_unsorted_drops_permutations unsorted_index None (Some (2, 2)) (2, 2)).
  - reflexivity.
  - unfold lengths_agree. split_and!; intros t [= <-]; reflexivity.
  - unfold int64. cbn. lia.
  - intros H. apply Sorted_inv in H as [H _]. apply Sorted_inv in H as [_ H].
    apply HdRel_inv in H. vm_compute in H. congruence.
Defined.

(** X5.  When the constructor is called with [is_sorted] false, a value
    and a number of columns that is a 64-bit integer, every value stays
    with its coordinate: the pairs of coordinate and value of the instance
    are a rearrangement of the pairs that were given. *)
Theorem init_values_follow_coordinates {V : Type} (index : list (Z * Z)) (v : list V)
    (sparse_size : option (Z * Z)) (size : Z * Z)
    (rowcount rowptr colcount colptr csr2csc csc2csr : option (list Z)) :
  size_of index sparse_size size →
  lengths_agree index (Some v) size rowcount rowptr colcount colptr csr2csc csc2csr →
  int64 size.2 →
  ∃ s v', __init__ index (Some v) sparse_size rowcount rowptr colcount colptr csr2csc csc2csr
            false = Ok s
          ∧ _value s = Some v'
          ∧ length v' = length (_index s)
          ∧ zip (_index s) v' ≡ₚ zip index v.
Proof.
  intros Hsize Hlen Hint.
  destruct (init_sorts_linear_key _ _ _ _ _ _ _ _ _ _ Hsize Hlen Hint)
    as (s & Hs & _ & _ & _ & Hv).
  destruct (Hv v eq_refl) as (v' & Hv' & Hzip).
  exists s, v'. split_and!; [done..| |done].
  apply init_Ok_inv in Hs as (_ & _ & _ & _ & _ & _ & _ & _ & Hi & Hl & _).
  rewrite Hi. by apply Hl.
Qed.

Lemma init_values_follow_coordinates_witness :
  ∃ s v', __init__ (V:=Z) unsorted_index (Some [10; 20]) (Some (2, 2))
            None None None None None None false = Ok s
          ∧ _value s = Some v'
          ∧ length v' = length (_index s)
          ∧ zip (_index s) v' ≡ₚ zip unsorted_index [10; 20].
Proof.
  apply (init_values_follow_coordinates unsorted_index [10; 20] (Some (2, 2)) (2, 2)).
  - reflexivity.
  - unfold lengths_agree. split_and!; intros t [= <-]; reflexivity.
  - unfold int64. cbn. lia.
Defined.

(** ** The default size *)

Lemma foldr_max_ge (x : Z) (t : list Z) : x ≤ foldr Z.max x t ∧ Forall (λ y, y ≤ foldr Z.max x t) t.
Proof.
  induction t as [|y t [IH1 IH2]]; [by split|].
  cbn [foldr]. split; [lia|].
  constructor; [lia|]. eapply Forall_impl; [done|]. simpl. lia.
Qed.

Lemma foldr_max_elem (x : Z) (t : list Z) : foldr Z.max x t ∈ x :: t.
Proof.
  induction t as [|y t IH]; [by left|].
  cbn [foldr]. destruct (Z.max_spec y (foldr Z.max x t)) as [[_ ->]|[_ ->]].
  - apply elem_of_cons in IH as [->|IH]; [by left | by do 2 right].
  - right. by left.
Qed.

Lemma torch_max_spec (t : list Z) (m : Z) :
  torch.max t = Ok m → m ∈ t ∧ Forall (λ y, y ≤ m) t.
Proof.
  destruct t as [|x t]; [done|]. intros [= <-].
  split; [apply foldr_max_elem|].
  destruct (foldr_max_ge x t). by constructor.
Qed.

(** X6.  Without a given sparse size and with an index that is not
    empty, the constructor takes the largest row and the largest column
    plus one: every coordinate is below that size, and the size is reached
    in both dimensions. *)
Theorem default_sparse_size_covers (index : list (Z * Z)) :
  index ≠ [] →
  Forall (λ e : Z * Z, - 2 ^ 63 ≤ e.1 < 2 ^ 63 - 1 ∧ - 2 ^ 63 ≤ e.2 < 2 ^ 63 - 1) index →
  ∃ size, default_sparse_size index = Ok size
          ∧ Forall (λ e : Z * Z, e.1 < size.1 ∧ e.2 < size.2) index
          ∧ (∃ e, e ∈ index ∧ e.1 = size.1 - 1)
          ∧ (∃ e, e ∈ index ∧ e.2 = size.2 - 1).
Proof.
  intros Hne Hfit. unfold default_sparse_size.
  destruct (torch.max (row_of index)) as [r|e] eqn:Hr.
  2:{ destruct index; [done | discriminate Hr]. }
  destruct (torch.max (col_of index)) as [c|e] eqn:Hc.
  2:{ destruct index; [done | discriminate Hc]. }
  apply torch_max_spec in Hr as [Hr1 Hr2]. apply torch_max_spec in Hc as [Hc1 Hc2].
  unfold row_of, col_of in *.
  apply list_elem_of_fmap in Hr1 as (er & -> & Her).
  apply list_elem_of_fmap in Hc1 as (ec & -> & Hec).
  rewrite Forall_fmap in Hr2, Hc2. rewrite Forall_forall in Hfit, Hr2, Hc2.
  assert (E1 : add64 er.1 1 = er.1 + 1).
  { apply wrap64_id. specialize (Hfit _ Her). lia. }
  assert (E2 : add64 ec.2 1 = ec.2 + 1).
  { apply wrap64_id. specialize (Hfit _ Hec). lia. }
  eexists. cbn [mbind result_bind]. split; [done|]. cbn [fst snd]. rewrite E1, E2.
  split_and!.
  - apply Forall_forall. intros e He.
    specialize (Hr2 _ He). specialize (Hc2 _ He). simpl in *. lia.
  - exists er. split; [done | lia].
  - exists ec. split; [done | lia].
Qed.

Lemma default_sparse_size_covers_witness :
  ∃ size, default_sparse_size unsorted_index = Ok size
          ∧ Forall (λ e : Z * Z, e.1 < size.1 ∧ e.2 < size.2) unsorted_index
          ∧ (∃ e, e ∈ unsorted_index ∧ e.1 = size.1 - 1)
          ∧ (∃ e, e ∈ unsorted_index ∧ e.2 = size.2 - 1).
Proof.
  apply (default_sparse_size_covers unsorted_index).
  - discriminate.
  - unfold unsorted_index. repeat apply Forall_cons_2; [cbn; lia.. | apply Forall_nil_2].
Defined.

(** X7.  An empty index without a sparse size has no default size: when
    the value is absent or empty the constructor raises the [IndexError]
    of [index.max(dim=-1)] on a dimension of size zero, whatever derived
    arrays are supplied; a value that is not empty fails the assertion on
    its length before that. *)
Theorem init_empty_index_raises {V : Type}
    (rowcount rowptr colcount colptr csr2csc csc2csr : option (list Z)) (is_sorted : bool) :
  __init__ (V:=V) [] None None rowcount rowptr colcount colptr csr2csc csc2csr is_sorted
  = Raise IndexError
  ∧ __init__ (V:=V) [] (Some []) None rowcount rowptr colcount colptr csr2csc csc2csr is_sorted
    = Raise IndexError
  ∧ ∀ v0 v, __init__ (V:=V) [] (Some (v0 :: v)) None
              rowcount rowptr colcount colptr csr2csc csc2csr is_sorted
            = Raise AssertionError.
Proof. by split_and!. Qed.

(** * Further properties of coalescing *)

Lemma Sorted_lt_ascents (prev : Z) (idx : list Z) :
  torch.all (ascents prev idx) = true ↔ Sorted Z.lt (prev :: idx).
Proof.
  split.
  - intros H. apply all_ascents in H as [H1 H2].
    constructor; [done|]. destruct idx; constructor. by apply H2.
  - intros H. apply Sorted_inv in H as [Hs Hd]. apply ascents_all; [done|].
    intros k Hk. destruct idx; [done|]. injection Hk as ->. by apply HdRel_inv in Hd.
Qed.

Lemma masked_select_sublist {A : Type} (x : list A) (mask : list bool) :
  sublist (torch.masked_select x mask) x.
Proof.
  revert mask. induction x as [|a x IH]; intros [|[] mask]; cbn;
    try apply sublist_nil_l.
  - by apply sublist_skip.
  - by apply sublist_cons.
Qed.

(** Among non-decreasing keys, the selected ones are the keys above
    [prev]. *)
Lemma elem_of_selected (prev : Z) (idx : list Z) (k : Z) :
  Sorted Z.le (prev :: idx) →
  k ∈ torch.masked_select idx (ascents prev idx) ↔ k ∈ idx ∧ prev < k.
Proof.
  revert prev. induction idx as [|a idx IH]; intros prev Hs.
  { cbn. split; [by intros ?%elem_of_nil | by intros [?%elem_of_nil _]]. }
  apply Sorted_inv in Hs as [Hs Hd]. apply HdRel_inv in Hd.
  pose proof (Sorted_StronglySorted _ _ Hs) as Ha.
  apply StronglySorted_inv in Ha as [_ Ha]. rewrite Forall_forall in Ha.
  specialize (IH a Hs).
  cbn. case_bool_decide as Hgt.
  - rewrite !elem_of_cons, IH. split.
    + intros [->|[Hk Hak]]; [split; [by left | lia] | split; [by right | lia]].
    + intros [[->|Hk] Hpk]; [by left|].
      specialize (Ha _ Hk). destruct (decide (k = a)) as [->|]; [by left|].
      right. split; [done | lia].
  - rewrite elem_of_cons, IH. split.
    + intros [Hk Hak]. split; [by right | lia].
    + intros [[->|Hk] Hpk]; [lia|]. split; [done | lia].
Qed.

Lemma Forall_sublist {A : Type} (P : A → Prop) (l1 l2 : list A) :
  sublist l1 l2 → Forall P l2 → Forall P l1.
Proof.
  induction 1 as [|a l1 l2 _ IH|a l1 l2 _ IH]; intros H; [done|..].
  - apply Forall_cons in H as [Ha H]. constructor; [done | by apply IH].
  - apply Forall_cons in H as [_ H]. by apply IH.
Qed.

Lemma length_masked_select_lt {A : Type} (x : list A) (mask : list bool) :
  length mask = length x → torch.all mask = false →
  (length (torch.masked_select x mask) < length x)%nat.
Proof.
  unfold torch.all. revert mask.
  induction x as [|a x IH]; intros [|b mask] Hlen Hall; try done.
  injection Hlen as Hlen. destruct b; cbn in *.
  - specialize (IH _ Hlen Hall). lia.
  - pose proof (sublist_length _ _ (masked_select_sublist x mask)). lia.
Qed.


Section coalesce_more.

Context {V : Type}.
Implicit Types (obj : SparseStorage V) (reduce : list V → V).

(** What [coalesce] returns when it returns: the instance itself on the
    fast path, and otherwise a new instance of the same size with the
    selected coordinates and nothing materialized. *)
Lemma coalesce_Ok_inv reduce obj (s : SparseStorage V) :
  coalesce reduce obj = Ok s →
  int64 (_sparse_size obj).2
  ∧ (is_coalesced obj = Ok true ∧ s = obj
     ∨ is_coalesced obj = Ok false
       ∧ _index s = torch.masked_select (_index obj) (ascents (-1) (keys64 obj))
       ∧ _sparse_size s = _sparse_size obj
       ∧ nothing_materialized s).
Proof.
  unfold coalesce. intros H. apply bind_Ok in H as (idx & Hidx & H).
  apply linear_key_Ok_inv in Hidx as [Hn ->]. split; [done|].
  rewrite is_coalesced_keys64 by done. fold (keys64 obj) in H.
  rewrite first_mask_ascents in H.
  destruct (torch.all _); [apply Ok_inj in H; subst s; by left|].
  right. apply init_sorted_hint_inv in H as (-> & _).
  split_and!; [done..|]. by intros [].
Qed.

(** With non-negative keys and a value of the length of the index the
    slow path of [coalesce] passes the assertion of the constructor. *)
Lemma coalesce_returns reduce obj :
  int64 (_sparse_size obj).2 →
  Forall (λ k, 0 ≤ k) (keys64 obj) →
  (∀ v, _value obj = Some v → length v = length (_index obj)) →
  ∃ s, coalesce reduce obj = Ok s
       ∧ (∀ v', _value s = Some v' → length v' = length (_index s)).
Proof.
  intros Hn Hpos Hvalue. unfold coalesce. rewrite linear_key_key64 by done.
  cbn [mbind result_bind]. fold (keys64 obj). cbv zeta. rewrite !first_mask_ascents.
  destruct (torch.all _) eqn:Hall; [by eauto|].
  set (mask := ascents (-1) (keys64 obj)) in *.
  assert (Hmask : length mask = length (_index obj)).
  { unfold mask, keys64. by rewrite length_ascents, length_fmap. }
  assert (∃ mask', mask = true :: mask') as [mask' Hmask'].
  { unfold mask in *. destruct (keys64 obj) as [|k0 ks]; [done|].
    cbn. rewrite bool_decide_eq_true_2; [by eauto|].
    apply Forall_cons in Hpos as [Hk _]. lia. }
  clearbody mask. subst mask.
  match goal with |- ∃ s, __init__ ?i ?v _ _ _ _ _ _ _ _ = _ ∧ _ =>
    assert (Hlen : lengths_agree i v (sparse_size obj) None None None None None None)
  end.
  { unfold lengths_agree. split_and!; try done.
    intros v' Hv'. unfold value in Hv'.
    destruct (_value obj) as [v|] eqn:Ev; [|done].
    apply (inj Some) in Hv'. subst v'. specialize (Hvalue v eq_refl). unfold index.
    rewrite length_segment_csr.
    - by apply length_masked_select.
    - by rewrite Hvalue, <- Hmask. }
  rewrite (init_unfold _ _ _ (sparse_size obj)) by done.
  cbn [negb mbind result_bind]. eexists. split; [done|].
  cbn [_value _index]. apply Hlen.
Qed.

(** [coalesce] keeps one entry of every key, in terms of the 64-bit
    keys. *)
Lemma coalesce_keys64 reduce obj :
  int64 (_sparse_size obj).2 →
  Sorted Z.le (keys64 obj) →
  Forall (λ k, 0 ≤ k) (keys64 obj) →
  (∀ v, _value obj = Some v → length v = length (_index obj)) →
  ∃ s, coalesce reduce obj = Ok s
       ∧ _sparse_size s = _sparse_size obj
       ∧ Sorted Z.lt (keys64 s)
       ∧ (∀ k, k ∈ keys64 s ↔ k ∈ keys64 obj)
       ∧ sublist (_index s) (_index obj)
       ∧ (∀ v', _value s = Some v' → length v' = length (_index s)).
Proof.
  intros Hn Hsorted Hpos Hvalue.
  destruct (coalesce_returns reduce obj Hn Hpos Hvalue) as (s & Hs & Hwf).
  exists s. split; [done|].
  destruct (coalesce_Ok_inv _ _ _ Hs) as [_ [[Hc ->]|(Hc & Hi & Hsz & _)]].
  - split_and!; [done| |done|done|done].
    by apply is_coalesced_strictly_increasing in Hc as [Hc _].
  - assert (Hkey : keys64 s = torch.masked_select (keys64 obj) (ascents (-1) (keys64 obj))).
    { unfold keys64 at 1. rewrite Hi, Hsz. apply masked_select_fmap. }
    split_and!; [done| | | |done].
    + rewrite Hkey.
      assert (Hh : ∀ k, head (keys64 obj) = Some k → -1 ≤ k).
      { intros k Hk. destruct (keys64 obj) as [|k0 ks]; [done|].
        injection Hk as ->. apply Forall_cons in Hpos as [Hk _]. lia. }
      pose proof (ascents_of_selected (-1) _ Hsorted Hh) as Ha.
      apply Sorted_lt_ascents in Ha. by apply Sorted_inv in Ha as [Ha _].
    + intros k. rewrite Hkey, elem_of_selected.
      * split; [by intros [? _]|]. intros Hk. split; [done|].
        rewrite Forall_forall in Hpos. specialize (Hpos _ Hk). lia.
      * constructor; [done|]. destruct (keys64 obj); constructor.
        apply Forall_cons in Hpos as [Hk _]. lia.
    + rewrite Hi. apply masked_select_sublist.
Qed.

End coalesce_more.



(** X9.  On an index in row-major sorted order with non-negative keys
    [row * num_cols + col] that fit in 64 bits, with a number of columns
    that is a 64-bit integer and a value, if any, of one entry per
    coordinate, [coalesce] keeps one entry of every key: the instance it
    returns has the same sparse size, its keys are strictly increasing,
    they are the keys of the given instance, and its coordinates are a
    subsequence of the given ones. *)
Theorem coalesce_keeps_each_key_once {V : Type} (reduce : list V → V) (obj : SparseStorage V) :
  int64 (_sparse_size obj).2 →
  keys_fit (_sparse_size obj).2 (_index obj) →
  Sorted Z.le (row_major_key (_sparse_size obj).2 <$> _index obj) →
  Forall (λ k, 0 ≤ k) (row_major_key (_sparse_size obj).2 <$> _index obj) →
  (∀ v, _value obj = Some v → length v = length (_index obj)) →
  ∃ s, coalesce reduce obj = Ok s
       ∧ _sparse_size s = _sparse_size obj
       ∧ Sorted Z.lt (row_major_key (_sparse_size obj).2 <$> _index s)
       ∧ (∀ k, k ∈ row_major_key (_sparse_size obj).2 <$> _index s
               ↔ k ∈ row_major_key (_sparse_size obj).2 <$> _index obj)
       ∧ sublist (_index s) (_index obj)
       ∧ (∀ v', _value s = Some v' → length v' = length (_index s)).
Proof.
  intros Hn Hfit Hsorted Hpos Hvalue.
  rewrite <- (key64_fit_map _ _ Hfit) in Hsorted, Hpos.
  destruct (coalesce_keys64 reduce obj Hn Hsorted Hpos Hvalue)
    as (s & Hs & Hsz & Hlt & Hin & Hsub & Hv).
  exists s. split_and!; [done | done | | | done | done].
  - rewrite <- key64_fit_map by (by apply (Forall_sublist _ _ _ Hsub)).
    unfold keys64 in Hlt. by rewrite Hsz in Hlt.
  - intros k. rewrite <- !key64_fit_map by (done || by apply (Forall_sublist _ _ _ Hsub)).
    unfold keys64 in Hin. rewrite Hsz in Hin. apply Hin.
Qed.

Lemma coalesce_keeps_each_key_once_witness :
  ∃ s, coalesce reduce_add with_duplicate = Ok s
       ∧ _sparse_size s = (2, 2)
       ∧ Sorted Z.lt (row_major_key 2 <$> _index s)
       ∧ (∀ k, k ∈ row_major_key 2 <$> _index s
               ↔ k ∈ row_major_key 2 <$> [(0, 1); (0, 1); (1, 0)])
       ∧ sublist (_index s) [(0, 1); (0, 1); (1, 0)]
       ∧ (∀ v', _value s = Some v' → length v' = length (_index s)).
Proof.
  apply (coalesce_keeps_each_key_once reduce_add with_duplicate).
  - unfold int64. cbn. lia.
  - unfold keys_fit. cbn. repeat apply Forall_cons_2; [cbn; lia.. | apply Forall_nil_2].
  - cbn. repeat first [apply Sorted_cons | apply Sorted_nil | apply HdRel_cons | apply HdRel_nil];
      unfold row_major_key; cbn; lia.
  - cbn. repeat apply Forall_cons_2; [unfold row_major_key; cbn; lia.. | apply Forall_nil_2].
  - intros v [= <-]. reflexivity.
Defined.

(** X10.  When [coalesce] finds a duplicate it returns a new instance
    with strictly fewer entries, the same sparse size and no derived array
    materialized, whatever was materialized on the given instance; when it
    finds none it returns the given instance with everything it holds. *)
Theorem coalesce_drops_derived_arrays {V : Type} (reduce : list V → V)
    (obj s : SparseStorage V) :
  coalesce reduce obj = Ok s →
  (is_coalesced obj = Ok true → s = obj)
  ∧ (is_coalesced obj = Ok false →
     nothing_materialized s
     ∧ _sparse_size s = _sparse_size obj
     ∧ (length (_index s) < length (_index obj))%nat).
Proof.
  intros Hs.
  destruct (coalesce_Ok_inv _ _ _ Hs) as [Hint [[Hc ->]|(Hc & Hi & Hsz & Hn)]].
  { split; [done|]. intros Hc'. congruence. }
  split; [intros Hc'; congruence|]. intros _.
  split_and!; [done..|]. rewrite Hi.
  apply length_masked_select_lt.
  - unfold keys64. by rewrite length_ascents, length_fmap.
  - rewrite is_coalesced_keys64 in Hc by done. by apply Ok_inj in Hc.
Qed.

Lemma coalesce_drops_derived_arrays_witness :
  ∃ s, coalesce reduce_add with_duplicate = Ok s
       ∧ is_Some (_rowptr with_duplicate)
       ∧ nothing_materialized s
       ∧ _sparse_size s = (2, 2)
       ∧ (length (_index s) < 3)%nat.
Proof.
  eexists. split; [vm_compute; reflexivity|].
  split; [by eexists|].
  refine (proj2 (coalesce_drops_derived_arrays reduce_add with_duplicate _ _) _).
  - vm_compute. reflexivity.
  - vm_compute. reflexivity.
Defined.

(** * Further properties of resizing *)

Section resize_more.

Context {V : Type}.
Implicit Types (obj : SparseStorage V) (nnz : SparseStorage V → result Z).

(** The constructor with a given size raises nothing but
    [AssertionError] under the hint [is_sorted = True]. *)
Lemma init_sorted_hint_raises (index : list (Z * Z)) (value : option (list V)) (size : Z * Z)
    (rowcount rowptr colcount colptr csr2csc csc2csr : option (list Z)) (e : exn) :
  __init__ index value (Some size) rowcount rowptr colcount colptr csr2csc csc2csr true
  = Raise e →
  e = AssertionError.
Proof.
  unfold __init__, assert_optional, assert.
  destruct value, rowcount, rowptr, colcount, colptr, csr2csc, csc2csr;
    cbn [negb mbind result_bind];
    repeat (case_bool_decide; cbn [mbind result_bind]); congruence.
Qed.

End resize_more.




(** X12.  [sparse_resize] checks the number of its arguments before
    anything else and calls [self.nnz()] next: with other than two sizes
    it raises [AssertionError] whatever [nnz] does, and with two sizes an
    exception of [nnz] is the exception of the resize.  On the class as
    it stands, which defines no [nnz], no resize returns: every call with
    two sizes raises [AttributeError]. *)
Theorem sparse_resize_raises_as_written {V : Type} (nnz : SparseStorage V → result Z)
    (obj : SparseStorage V) :
  (∀ sizes, length sizes ≠ 2%nat → sparse_resize nnz obj sizes = Raise AssertionError)
  ∧ (∀ size_0 size_1 e, nnz obj = Raise e →
       sparse_resize nnz obj [size_0; size_1] = Raise e)
  ∧ (∀ sizes, ∃ e, sparse_resize nnz_undefined obj sizes = Raise e
                   ∧ (length sizes = 2%nat → e = AttributeError)).
Proof.
  split_and!.
  - intros [|s0 [|s1 [|s2 sizes]]] H; done.
  - intros s0 s1 e H. unfold sparse_resize. by rewrite H.
  - intros [|s0 [|s1 [|s2 sizes]]]; eexists; (split; [reflexivity | done]).
Qed.





(** * Further properties of the cache *)

Ltac solve_getattr :=
  cbn [getattr setattr _rowcount _rowptr _colcount _colptr _csr2csc _csc2csr];
  repeat case_decide; congruence.

Section frame_proofs.

Context {V : Type}.
Implicit Types (st : @State V) (obj : SparseStorage V) (key : cache_key).

Lemma extends_refl obj : extends obj obj.
Proof. by split_and!. Qed.

Lemma extends_trans obj1 obj2 obj3 :
  extends obj1 obj2 → extends obj2 obj3 → extends obj1 obj3.
Proof.
  intros (H1 & H2 & H3 & H4) (G1 & G2 & G3 & G4).
  split_and!; [congruence.. |]. intros key t Ht. by apply G4, H4.
Qed.

Lemma extends_setattr key obj (v : list Z) :
  getattr key obj = None → extends obj (setattr key (Some v) obj).
Proof.
  intros Hn. split_and!; [done..|]. intros key' t Ht.
  destruct key, key'; cbn in *; repeat case_decide; congruence.
Qed.

Ltac solve_extends :=
  first [ apply extends_refl
        | apply extends_setattr; solve_getattr
        | eapply extends_trans; [|apply extends_setattr; solve_getattr]; solve_extends ].

Lemma only_materializes_ret {A : Type} (a : A) : only_materializes (V:=V) (mret a).
Proof. intros st. split; [apply extends_refl | done]. Qed.

Lemma only_materializes_lift {A : Type} (r : result A) : only_materializes (V:=V) (lift r).
Proof. intros st. split; [apply extends_refl | done]. Qed.

Lemma only_materializes_bind {A B : Type} (m : M A) (f : A → M B) :
  only_materializes (V:=V) m → (∀ a, only_materializes (f a)) → only_materializes (m ≫= f).
Proof.
  intros Hm Hf st. unfold mbind, M_bind.
  destruct (Hm st) as (H1 & H2 & H3).
  destruct (m st) as [st1 [a|e]]; cbn [fst] in *; [|done].
  destruct (Hf a st1) as (G1 & G2 & G3).
  split; [by eapply extends_trans|]. split; congruence.
Qed.

Lemma only_materializes_property key : only_materializes (V:=V) (property key).
Proof.
  intros st. rewrite property_prev. split_and!; [| |done].
  - destruct key; run_M;
      repeat (break_match; cbn [self __cache__ getattr fst snd]);
      solve_extends.
  - destruct key; run_M;
      repeat (break_match; cbn [self __cache__ getattr fst snd]); done.
Qed.

(** With the cache enabled a read that returns has stored what it
    returns. *)
Lemma property_stores key st (v : list Z) :
  __cache__ st = true → (property key st).2 = Ok v →
  getattr key (self (property key st).1) = Some v.
Proof.
  intros Hflag. destruct key; run_M; rewrite ?Hflag;
    repeat (break_match; cbn [self __cache__ getattr fst snd]);
    try done; intros Hv; apply Ok_inj in Hv; subst v; solve_getattr.
Qed.

End frame_proofs.

Section fill_proofs.

Context {V : Type}.
Implicit Types (st : @State V) (obj : SparseStorage V) (key : cache_key).

Lemma bind_run {A B : Type} (m : @M V A) (f : A → M B) st :
  (m ≫= f) st
  = match (m st).2 with
    | Ok a => f a (m st).1
    | Raise e => ((m st).1, Raise e)
    end.
Proof. unfold mbind, M_bind. by destruct (m st) as [st1 [a|e]]. Qed.

Lemma in_range_int64 obj :
  in_range obj → int64 (_sparse_size obj).1 ∧ int64 (_sparse_size obj).2.
Proof. intros (H1 & H2 & _). unfold int64. lia. Qed.

(** In a valid state every read returns the computed array, the read of
    [colptr] provided it does not take the truth value of a materialized
    [_csr2csc]. *)
Lemma property_returns key st :
  valid_state st →
  (key = Kcolptr → is_Some (_colptr (self st)) ∨ _csr2csc (self st) = None) →
  (property key st).2 = Ok (computed key (self st)).
Proof.
  intros [Hc Hr] Hp. destruct key; cbn [property].
  - by apply rowcount_value.
  - by apply rowptr_value.
  - by apply colcount_value.
  - destruct (colptr_value st Hc Hr) as [H|(_ & Hn & Hs)]; [done|].
    destruct (Hp eq_refl) as [[q Hq]|Hq]; [congruence|].
    rewrite Hq in Hs. by destruct Hs.
  - apply csr2csc_value; [done | by apply in_range_int64].
  - apply csc2csr_value; [done | by apply in_range_int64].
Qed.

Lemma property_keeps_csr2csc key st :
  key ≠ Kcsr2csc → key ≠ Kcsc2csr → _csr2csc (self st) = None →
  _csr2csc (self (property key st).1) = None.
Proof.
  intros H1 H2 Hn. destruct key; try done; run_M; rewrite ?Hn;
    repeat (break_match; cbn [self __cache__ getattr fst snd]);
    try done; solve_getattr.
Qed.

Lemma read_step key st :
  valid_state st → __cache__ st = true →
  (property key st).2 = Ok (computed key (self st)) →
  valid_state (property key st).1 ∧ __cache__ (property key st).1 = true
  ∧ extends (self st) (self (property key st).1)
  ∧ getattr key (self (property key st).1) = Some (computed key (self st))
  ∧ ∀ k, computed k (self (property key st).1) = computed k (self st).
Proof.
  intros Hv Hflag Hret.
  destruct (reads_computed_property key st Hv) as (Hv' & Hi & Hs & _).
  destruct (only_materializes_property key st) as (He & Hf & _).
  split_and!; [done | congruence | done | by apply property_stores |].
  intros k. by apply computed_same_data.
Qed.

End fill_proofs.

(** X15.  A read of a cached property, and so [fill_cache_], only
    materializes: the coordinates, the values, the sparse size, the cache
    flag and the guard objects are as before, and every array that was
    materialized is still there with the same contents, whether the read
    returns or raises. *)
Theorem reads_only_materialize {V : Type} :
  (∀ key, only_materializes (V:=V) (property key))
  ∧ (∀ args, only_materializes (V:=V) (fill_cache_ args)).
Proof.
  split; [apply only_materializes_property|].
  intros args. unfold fill_cache_. generalize (args_or_cache_keys args). clear args.
  intros args. induction args as [|arg args IH]; cbn [read_each].
  - apply only_materializes_ret.
  - apply only_materializes_bind; [apply only_materializes_property | done].
Qed.

(** X16.  With the cache enabled a read that returns is memoized: the
    next read of the same property returns the same array and leaves the
    state, with its record of the calls, as it is. *)
Theorem cached_read_memoizes {V : Type} (key : cache_key) (st : @State V) (v : list Z) :
  __cache__ st = true → (property key st).2 = Ok v →
  property key (property key st).1 = ((property key st).1, Ok v).
Proof.
  intros Hflag Hv. apply property_materialized. by apply property_stores.
Qed.

Lemma cached_read_memoizes_witness :
  property Krowptr (property Krowptr (initial_state true three_entries)).1
  = ((property Krowptr (initial_state true three_entries)).1, Ok [0; 2; 3]).
Proof.
  apply (cached_read_memoizes Krowptr (initial_state true three_entries) [0; 2; 3]).
  - reflexivity.
  - vm_compute. reflexivity.
Defined.

(** X17.  With the cache enabled, [fill_cache_()] returns and leaves all
    six derived arrays materialized, each with the array its property
    computes, on an instance whose coordinates lie within its sparse
    size, whose sizes and number of entries fit in 64 bits, whose
    materialized arrays are the computed ones, and on which the read of
    [colptr] does not meet a materialized [_csr2csc]. *)
Theorem fill_cache_materializes_all {V : Type} (st : @State V) :
  valid_state st → __cache__ st = true →
  is_Some (_colptr (self st)) ∨ _csr2csc (self st) = None →
  (fill_cache_ [] st).2 = Ok ()
  ∧ ∀ key, getattr key (self (fill_cache_ [] st).1) = Some (computed key (self st)).
Proof.
  intros Hv0 Hf0 Hp0.
  unfold fill_cache_, args_or_cache_keys, cache_keys. cbn [read_each].
  (* rowcount *)
  pose proof (property_returns Krowcount st Hv0 ltac:(done)) as R1.
  destruct (read_step Krowcount st Hv0 Hf0 R1) as (Hv1 & Hf1 & He1 & Hg1 & Hc1).
  rewrite bind_run, R1. set (st1 := (property Krowcount st).1) in *.
  assert (Hp1 : is_Some (_colptr (self st1)) ∨ _csr2csc (self st1) = None).
  { destruct Hp0 as [[q Hq]|Hn]; [left|right].
    - exists q. by apply (proj2 (proj2 (proj2 He1)) Kcolptr).
    - by apply property_keeps_csr2csc. }
  (* rowptr *)
  pose proof (property_returns Krowptr st1 Hv1 ltac:(done)) as R2.
  destruct (read_step Krowptr st1 Hv1 Hf1 R2) as (Hv2 & Hf2 & He2 & Hg2 & Hc2).
  rewrite bind_run, R2. set (st2 := (property Krowptr st1).1) in *.
  assert (Hp2 : is_Some (_colptr (self st2)) ∨ _csr2csc (self st2) = None).
  { destruct Hp1 as [[q Hq]|Hn]; [left|right].
    - exists q. by apply (proj2 (proj2 (proj2 He2)) Kcolptr).
    - by apply property_keeps_csr2csc. }
  (* colcount *)
  pose proof (property_returns Kcolcount st2 Hv2 ltac:(done)) as R3.
  destruct (read_step Kcolcount st2 Hv2 Hf2 R3) as (Hv3 & Hf3 & He3 & Hg3 & Hc3).
  rewrite bind_run, R3. set (st3 := (property Kcolcount st2).1) in *.
  assert (Hp3 : is_Some (_colptr (self st3)) ∨ _csr2csc (self st3) = None).
  { destruct Hp2 as [[q Hq]|Hn]; [left|right].
    - exists q. by apply (proj2 (proj2 (proj2 He3)) Kcolptr).
    - by apply property_keeps_csr2csc. }
  (* colptr *)
  pose proof (property_returns Kcolptr st3 Hv3 (λ _, Hp3)) as R4.
  destruct (read_step Kcolptr st3 Hv3 Hf3 R4) as (Hv4 & Hf4 & He4 & Hg4 & Hc4).
  rewrite bind_run, R4. set (st4 := (property Kcolptr st3).1) in *.
  (* csr2csc *)
  pose proof (property_returns Kcsr2csc st4 Hv4 ltac:(done)) as R5.
  destruct (read_step Kcsr2csc st4 Hv4 Hf4 R5) as (Hv5 & Hf5 & He5 & Hg5 & Hc5).
  rewrite bind_run, R5. set (st5 := (property Kcsr2csc st4).1) in *.
  (* csc2csr *)
  pose proof (property_returns Kcsc2csr st5 Hv5 ltac:(done)) as R6.
  destruct (read_step Kcsc2csr st5 Hv5 Hf5 R6) as (Hv6 & Hf6 & He6 & Hg6 & Hc6).
  rewrite bind_run, R6. set (st6 := (property Kcsc2csr st5).1) in *.
  split; [done|]. change ((mret () : M unit) st6).1 with st6.
  destruct He2 as (_ & _ & _ & He2), He3 as (_ & _ & _ & He3),
    He4 as (_ & _ & _ & He4), He5 as (_ & _ & _ & He5), He6 as (_ & _ & _ & He6).
  intros [].
  - apply He6, He5, He4, He3, He2. done.
  - apply He6, He5, He4, He3. rewrite Hg2. f_equal. apply Hc1.
  - apply He6, He5, He4. rewrite Hg3. f_equal. by rewrite Hc2, Hc1.
  - apply He6, He5. rewrite Hg4. f_equal. by rewrite Hc3, Hc2, Hc1.
  - apply He6. rewrite Hg5. f_equal. by rewrite Hc4, Hc3, Hc2, Hc1.
  - rewrite Hg6. f_equal. by rewrite Hc5, Hc4, Hc3, Hc2, Hc1.
Qed.

Lemma three_entries_valid (enabled : bool) : valid_state (initial_state enabled three_entries).
Proof.
  split; [|apply three_entries_in_range].
  apply nothing_materialized_consistent. by intros [].
Qed.

Lemma fill_cache_materializes_all_witness :
  (fill_cache_ [] (initial_state true three_entries)).2 = Ok ()
  ∧ ∀ key, getattr key (self (fill_cache_ [] (initial_state true three_entries)).1)
           = Some (computed key three_entries).
Proof.
  apply (fill_cache_materializes_all (initial_state true three_entries)).
  - apply three_entries_valid.
  - reflexivity.
  - by right.
Defined.

(** * Clearing the cache, the permutation to column order, and reentry of
    the guard *)

Section clear_proofs.

Context {V : Type}.
Implicit Types (obj : SparseStorage V) (key : cache_key).

Lemma getattr_setattr key key' (v : option (list Z)) obj :
  getattr key (setattr key' v obj) = if decide (key = key') then v else getattr key obj.
Proof. destruct key, key'; cbn; repeat case_decide; congruence. Qed.

Lemma clear_each (l : list cache_key) obj :
  _index (foldl (λ o arg, setattr arg None o) obj l) = _index obj
  ∧ _value (foldl (λ o arg, setattr arg None o) obj l) = _value obj
  ∧ _sparse_size (foldl (λ o arg, setattr arg None o) obj l) = _sparse_size obj
  ∧ ∀ key, getattr key (foldl (λ o arg, setattr arg None o) obj l)
           = if decide (key ∈ l) then None else getattr key obj.
Proof.
  revert obj. induction l as [|a l IH]; intros obj; cbn [foldl].
  - split_and!; [done..|]. intros key. rewrite decide_False; [done|]. apply not_elem_of_nil.
  - destruct (IH (setattr a None obj)) as (H1 & H2 & H3 & H4).
    split_and!; [done..|]. intros key. rewrite H4, getattr_setattr.
    destruct (decide (key ∈ l)) as [Hin|Hout].
    + rewrite decide_True; [done|]. apply elem_of_cons. by right.
    + destruct (decide (key = a)) as [->|Hne].
      * rewrite decide_True; [done|]. apply elem_of_cons. by left.
      * rewrite decide_False; [done|]. intros [?|?]%elem_of_cons; done.
Qed.

End clear_proofs.

(** X18.  [clear_cache_] unsets the arrays it is asked to unset, all six
    when it is called without arguments, and touches nothing else: the
    coordinates, the values, the size and every other array stay; after
    [clear_cache_()] no key is cached. *)
Theorem clear_cache_unsets {V : Type} (args : list cache_key) (obj : SparseStorage V) :
  _index (clear_cache_ args obj) = _index obj
  ∧ _value (clear_cache_ args obj) = _value obj
  ∧ _sparse_size (clear_cache_ args obj) = _sparse_size obj
  ∧ (∀ key, getattr key (clear_cache_ args obj)
            = if decide (key ∈ args_or_cache_keys args) then None else getattr key obj)
  ∧ cached_keys (clear_cache_ [] obj) = [].
Proof.
  unfold clear_cache_.
  destruct (clear_each (args_or_cache_keys args) obj) as (H1 & H2 & H3 & H4).
  split_and!; [done..|].
  destruct (clear_each (V:=V) (args_or_cache_keys []) obj) as (_ & _ & _ & G).
  assert (Hn : ∀ key, getattr key
                 (foldl (λ o arg, setattr arg None o) obj (args_or_cache_keys [])) = None).
  { intros key. rewrite G. rewrite decide_True; [done|].
    cbn. unfold cache_keys. destruct key; set_solver. }
  unfold cached_keys, cache_keys.
  rewrite !filter_cons, filter_nil, !Hn.
  repeat (rewrite decide_False by (by intros [? ?])). done.
Qed.



(** X20.  A guard object is not reentrant: when the [with] block of a
    guard is entered again inside its own block, by a body that leaves
    the guard alone, the cache is disabled after both blocks are left,
    whatever the flag was before. *)
Theorem guard_reentry_disables {V A : Type} (g : nat) (body : @M V A) (st : @State V) :
  keeps_prev g body →
  __cache__ (with_ g (with_ g body) st).1 = false.
Proof.
  intros Hbody. unfold with_ at 1. rewrite no_cache_enter_spec.
  set (st1 := {| __cache__ := false; self := self st;
                 prev := <[g := __cache__ st]> (prev st); calls := calls st |}).
  rewrite (with_spec g body st1 Hbody).
  rewrite (no_cache_exit_spec g _ false).
  - by destruct (body _).2.
  - cbn [with_flag prev]. rewrite Hbody, no_cache_enter_spec. cbn [fst prev st1 __cache__].
    by rewrite lookup_insert_eq.
Qed.

Lemma guard_reentry_disables_witness :
  __cache__ (with_ 0 (with_ 0 (property Krowptr)) (initial_state true three_entries)).1 = false.
Proof.
  apply (guard_reentry_disables 0 (property Krowptr) (initial_state true three_entries)).
  apply keeps_prev_property.
Defined.

(** X21.  A function decorated with a guard, when it stores nothing with
    the cache disabled and leaves the guard alone, leaves the instance as
    it found it and the cache flag as it was, whether it returns or
    raises; the reads of the derived properties are such functions. *)
Theorem no_cache_call_leaves_instance {V A B : Type} (g : nat) (func : A → @M V B)
    (args : A) (st : @State V) :
  stores_nothing (func args) → keeps_prev g (func args) →
  self (no_cache_call g func args st).1 = self st
  ∧ __cache__ (no_cache_call g func args st).1 = __cache__ st
  ∧ prev (no_cache_call g func args st).1 !! g = Some (__cache__ st).
Proof.
  intros Hs Hk. unfold no_cache_call. rewrite with_spec by done.
  rewrite no_cache_enter_spec. cbn [fst with_flag self __cache__ prev].
  set (st1 := {| __cache__ := false; self := self st;
                 prev := <[g := __cache__ st]> (prev st); calls := calls st |}).
  destruct (Hs st1 eq_refl) as [H1 _].
  split_and!; [by rewrite H1 | done |].
  rewrite Hk. cbn [st1 prev]. by rewrite lookup_insert_eq.
Qed.

Lemma no_cache_call_leaves_instance_witness :
  self (no_cache_call 0 property Kcolcount (initial_state true three_entries)).1 = three_entries
  ∧ __cache__ (no_cache_call 0 property Kcolcount (initial_state true three_entries)).1 = true
  ∧ prev (no_cache_call 0 property Kcolcount (initial_state true three_entries)).1 !! 0%nat
    = Some true.
Proof.
  apply (no_cache_call_leaves_instance 0 property Kcolcount (initial_state true three_entries)).
  - apply stores_nothing_property.
  - apply keeps_prev_property.
Defined.

(** * The value setters *)

Section setters.

Context {V F : Type}.
Variable nnz : SparseStorage V → result Z.
Implicit Types (st : @State V) (value : @py_value V F) (layout : option string).

Lemma only_materializes_get_self : only_materializes (V:=V) get_self.
Proof. intros st. split; [apply extends_refl | done]. Qed.

(** Working out the tensor to store only materializes. *)
Lemma only_materializes_to_value value layout :
  only_materializes (to_value nnz value layout).
Proof.
  destruct value as [n|x|t|]; cbn [to_value].
  - apply only_materializes_bind; [apply only_materializes_get_self|]. intros obj.
    apply only_materializes_bind; intros; apply only_materializes_lift.
  - apply only_materializes_bind; [apply only_materializes_get_self|]. intros obj.
    apply only_materializes_bind; intros; apply only_materializes_lift.
  - apply only_materializes_bind; [apply only_materializes_lift|]. intros l.
    case_decide; [|apply only_materializes_ret].
    apply only_materializes_bind; [apply (only_materializes_property Kcsc2csr)|].
    intros perm. apply only_materializes_lift.
  - apply only_materializes_lift.
Qed.

Lemma set_value__run value layout st :
  set_value_ nnz value layout st
  = match (to_value nnz value layout st).2 with
    | Ok v =>
        let st1 := (to_value nnz value layout st).1 in
        if bool_decide (length v = length (_index (self st1))) then
          ({| __cache__ := __cache__ st1; self := set__value (Some v) (self st1);
              prev := prev st1; calls := calls st1 |}, Ok ())
        else (st1, Raise AssertionError)
    | Raise e => ((to_value nnz value layout st).1, Raise e)
    end.
Proof.
  unfold set_value_. rewrite bind_run.
  destruct (to_value nnz value layout st) as [st1 [v|e]]; cbn [fst snd]; [|done].
  cbv beta iota zeta delta [get_self lift set_self mbind M_bind assert index].
  by destruct (bool_decide _).
Qed.

Lemma set_value_run value layout st :
  set_value nnz value layout st
  = match (to_value nnz value layout st).2 with
    | Ok v =>
        let st1 := (to_value nnz value layout st).1 in
        if bool_decide (length v = length (_index (self st1))) then
          (st1, __init__ (_index (self st1)) (Some v) (Some (_sparse_size (self st1)))
                  (_rowcount (self st1)) (_rowptr (self st1))
                  (_colcount (self st1)) (_colptr (self st1))
                  (_csr2csc (self st1)) (_csc2csr (self st1)) true)
        else (st1, Raise AssertionError)
    | Raise e => ((to_value nnz value layout st).1, Raise e)
    end.
Proof.
  unfold set_value. rewrite bind_run.
  destruct (to_value nnz value layout st) as [st1 [v|e]]; cbn [fst snd]; [|done].
  cbv beta iota zeta delta [get_self lift set_self mbind M_bind assert index].
  by destruct (bool_decide _).
Qed.

End setters.

(** X22.  [set_value_] changes nothing of the instance but its values,
    apart from arrays that the layout [csc] makes it materialize: the
    coordinates, the size, the cache flag and every materialized array
    stay.  When it raises the values are as before; when it returns the
    instance holds one value for each entry. *)
Theorem set_value__frame {V F : Type} (nnz : SparseStorage V → result Z)
    (value : @py_value V F) (layout : option string) (st : @State V) :
  _index (self (set_value_ nnz value layout st).1) = _index (self st)
  ∧ _sparse_size (self (set_value_ nnz value layout st).1) = _sparse_size (self st)
  ∧ __cache__ (set_value_ nnz value layout st).1 = __cache__ st
  ∧ (∀ key t, getattr key (self st) = Some t →
       getattr key (self (set_value_ nnz value layout st).1) = Some t)
  ∧ (∀ e, (set_value_ nnz value layout st).2 = Raise e →
       _value (self (set_value_ nnz value layout st).1) = _value (self st))
  ∧ ((set_value_ nnz value layout st).2 = Ok () →
       ∃ t, _value (self (set_value_ nnz value layout st).1) = Some t
            ∧ length t = length (_index (self st))).
Proof.
  rewrite set_value__run.
  destruct (only_materializes_to_value nnz value layout st)
    as ((Hi & Hv & Hs & Hg) & Hf & _).
  destruct (to_value nnz value layout st) as [st1 [v|e]]; cbn [fst snd] in *.
  - cbv zeta. case_bool_decide as Hlen; cbn [fst snd self __cache__].
    + split_and!; [done | done | done | done | done |].
      intros _. exists v. split; [done|]. by rewrite <- Hi.
    + split_and!; [done | done | done | done | done | done].
  - split_and!; [done | done | done | done | done | done].
Qed.

(** X23.  When [set_value] returns an instance, [set_value_] called in
    the same state returns and makes the instance it was called on equal
    to it; the instance returned passes the checks of the constructor,
    and the values of the instance [set_value] was called on are as
    before. *)
Theorem set_value_agrees_with_set_value_ {V F : Type} (nnz : SparseStorage V → result Z)
    (value : @py_value V F) (layout : option string) (st : @State V) (s : SparseStorage V) :
  (set_value nnz value layout st).2 = Ok s →
  (set_value_ nnz value layout st).2 = Ok ()
  ∧ self (set_value_ nnz value layout st).1 = s
  ∧ well_formed s
  ∧ _value (self (set_value nnz value layout st).1) = _value (self st).
Proof.
  rewrite set_value__run, set_value_run.
  destruct (only_materializes_to_value nnz value layout st)
    as ((Hi & Hv & Hs & Hg) & Hf & _).
  destruct (to_value nnz value layout st) as [st1 [v|e]]; cbn [fst snd] in *; [|done].
  cbv zeta. case_bool_decide as Hlen; cbn [fst snd self]; [|done].
  intros H. pose proof H as H'.
  apply init_sorted_hint_inv in H as (-> & Hrc & Hrp & Hcc & Hcp).
  apply init_Ok_inv in H' as (size & Hsize & Hag & _).
  cbn in Hsize. subst size.
  split_and!; [done | done | exact Hag | done].
Qed.

Lemma set_value_agrees_with_set_value__witness :
  (set_value_ (F:=Z) nnz_undefined (PyTensor [4; 5; 6]) (Some "csr"%string)
     (initial_state true three_entries)).2 = Ok ()
  ∧ _value (self (set_value_ (F:=Z) nnz_undefined (PyTensor [4; 5; 6]) (Some "csr"%string)
                    (initial_state true three_entries)).1) = Some [4; 5; 6].
Proof.
  destruct (set_value_agrees_with_set_value_ (F:=Z) nnz_undefined (PyTensor [4; 5; 6])
              (Some "csr"%string) (initial_state true three_entries)
              {| _index := [(0, 0); (0, 1); (1, 0)]; _value := Some [4; 5; 6];
                 _sparse_size := (2, 2);
                 _rowcount := None; _rowptr := None; _colcount := None; _colptr := None;
                 _csr2csc := None; _csc2csr := None |})
    as (H1 & H2 & _).
  - vm_compute. reflexivity.
  - split; [exact H1|]. by rewrite H2.
Defined.

(** Selecting by the inverse of a permutation and then by the
    permutation gives the tensor back. *)
Lemma index_select_round_trip {A : Type} (t : list A) (pn : list nat) :
  pn ≡ₚ seq 0 (length t) →
  ∃ v, torch.index_select t (torch.argsort (Z.of_nat <$> pn)) = Ok v
       ∧ length v = length t
       ∧ torch.index_select v (Z.of_nat <$> pn) = Ok t.
Proof.
  intros Hp.
  assert (Hlen : length pn = length t) by (by rewrite Hp, length_seq).
  destruct (argsort_spec (Z.of_nat <$> pn)) as (qn & ks & Hqn & Hq & _).
  rewrite length_fmap, Hlen in Hq.
  destruct (index_select_Permutation t qn Hq) as (v & Hsel & Hfv & Hpv).
  exists v. rewrite Hqn. split; [done|]. split; [by rewrite Hpv|].
  apply index_select_Forall2.
  apply Forall2_same_length_lookup_2; [done|].
  intros k j a Hj Ha.
  assert (Hk : (k < length t)%nat) by (by eapply lookup_lt_Some).
  destruct (argsort_inverse pn (length t) k Hp Hk) as (j' & Hj' & Hinv).
  assert (j' = j) as -> by congruence.
  rewrite Hqn, list_lookup_fmap in Hinv.
  destruct (qn !! j) as [k'|] eqn:Hk'; [|done].
  cbn in Hinv. assert (k' = k) as -> by (apply Nat2Z.inj; congruence).
  destruct (Forall2_lookup_l _ _ _ _ _ Hfv Hk') as (a' & Ha' & Hta).
  congruence.
Qed.

(** X24.  In the layout [csc] the values are given in column-major
    order: on an instance whose number of rows is a 64-bit integer and
    whose materialized arrays are the computed ones, [set_value_] with a
    tensor of one value for each entry returns and stores the tensor
    rearranged by [csc2csr], and selecting the stored values by [csr2csc]
    gives the tensor back. *)
Theorem set_value__csc_round_trip {V F : Type} (nnz : SparseStorage V → result Z)
    (t : list V) (st : @State V) :
  consistent (self st) → int64 (_sparse_size (self st)).1 →
  length t = length (_index (self st)) →
  ∃ v, (set_value_ (F:=F) nnz (PyTensor t) (Some "csc"%string) st).2 = Ok ()
       ∧ _value (self (set_value_ (F:=F) nnz (PyTensor t) (Some "csc"%string) st).1) = Some v
       ∧ torch.index_select t (computed Kcsc2csr (self st)) = Ok v
       ∧ torch.index_select v (computed Kcsr2csc (self st)) = Ok t.
Proof.
  intros Hc Hint Hlen.
  set (keys := col_major_key64 (_sparse_size (self st)).1 <$> _index (self st)).
  assert (Hkeys : length keys = length t).
  { unfold keys. by rewrite length_fmap. }
  destruct (argsort_spec keys) as (pn & ks & Hpn & Hp & _).
  rewrite Hkeys in Hp.
  destruct (index_select_round_trip t pn Hp) as (v & Hsel & Hlv & Hback).
  assert (E1 : computed Kcsr2csc (self st) = Z.of_nat <$> pn) by exact Hpn.
  assert (E2 : computed Kcsc2csr (self st) = torch.argsort (Z.of_nat <$> pn)).
  { cbn [computed]. unfold computed_csr2csc. fold keys. by rewrite Hpn. }
  exists v. rewrite E1, E2. split_and!; [| |done|done].
  all: rewrite set_value__run.
  all: assert (Hto : to_value (F:=F) nnz (PyTensor t) (Some "csc"%string) st
                     = ((csc2csr st).1, Ok v)).
  1,3: unfold to_value; rewrite bind_run;
    change (lift (get_layout (Some "csc"%string)) st).2 with (Ok "csc"%string : result string);
    cbv iota beta; rewrite decide_True by done;
    change (lift (get_layout (Some "csc"%string)) st).1 with st;
    rewrite bind_run, (csc2csr_value st Hc Hint), E2; unfold lift; by rewrite Hsel.
  all: rewrite Hto; cbn [fst snd]; cbv zeta.
  all: destruct (only_materializes_property Kcsc2csr st) as ((Hi & _) & _).
  all: cbn [property] in Hi.
  all: rewrite bool_decide_eq_true_2 by congruence.
  all: done.
Qed.

Lemma three_entries_consistent (enabled : bool) :
  consistent (self (initial_state enabled three_entries)).
Proof. apply nothing_materialized_consistent. by intros []. Qed.

Lemma set_value__csc_round_trip_witness :
  ∃ v, (set_value_ (F:=Z) nnz_undefined (PyTensor [4; 5; 6]) (Some "csc"%string)
          (initial_state true three_entries)).2 = Ok ()
       ∧ _value (self (set_value_ (F:=Z) nnz_undefined (PyTensor [4; 5; 6]) (Some "csc"%string)
                         (initial_state true three_entries)).1) = Some v
       ∧ torch.index_select [4; 5; 6] (computed Kcsc2csr three_entries) = Ok v
       ∧ torch.index_select v (computed Kcsr2csc three_entries) = Ok [4; 5; 6].
Proof.
  apply (set_value__csc_round_trip (F:=Z) nnz_undefined [4; 5; 6]
           (initial_state true three_entries)).
  - apply three_entries_consistent.
  - unfold int64. cbn. lia.
  - reflexivity.
Defined.

(** * The functional transforms *)

Section transform_proofs.

Context {V : Type}.
Implicit Types (obj : SparseStorage V) (func : tensor_func V).

(** The loop of [apply_] over the cached keys maps every derived array
    that is materialized. *)
Lemma apply__unfold func obj :
  apply_ func obj
  = {| _index := on_index func (_index obj);
       _value := optional (on_value func) (_value obj);
       _sparse_size := _sparse_size obj;
       _rowcount := optional (on_long func) (_rowcount obj);
       _rowptr := optional (on_long func) (_rowptr obj);
       _colcount := optional (on_long func) (_colcount obj);
       _colptr := optional (on_long func) (_colptr obj);
       _csr2csc := optional (on_long func) (_csr2csc obj);
       _csc2csr := optional (on_long func) (_csc2csr obj) |}.
Proof.
  destruct obj as [index value size rc rp cc cp p q].
  destruct rc, rp, cc, cp, p, q; reflexivity.
Qed.

Lemma optional_id {A : Type} (x : option A) : optional (λ a, a) x = x.
Proof. by destruct x. Qed.

Lemma init_sorted_hint_iff (index : list (Z * Z)) (value : option (list V)) (size : Z * Z)
    (rowcount rowptr colcount colptr csr2csc csc2csr : option (list Z)) (s : SparseStorage V) :
  __init__ index value (Some size) rowcount rowptr colcount colptr csr2csc csc2csr true = Ok s
  ↔ s = {| _index := index; _value := value; _sparse_size := size;
           _rowcount := rowcount; _rowptr := rowptr;
           _colcount := colcount; _colptr := colptr;
           _csr2csc := csr2csc; _csc2csr := csc2csr |}
    ∧ lengths_agree index value size rowcount rowptr colcount colptr csr2csc csc2csr.
Proof.
  split.
  - intros H. pose proof H as H'.
    apply init_sorted_hint_inv in H as (-> & _).
    apply init_Ok_inv in H' as (size' & Hsize & Hag & _).
    cbn in Hsize. by subst size'.
  - intros [-> Hag]. by rewrite (init_unfold _ _ _ size).
Qed.

Lemma apply__identity obj : apply_ identity_func obj = obj.
Proof.
  rewrite apply__unfold. cbn [identity_func on_index on_value on_long].
  rewrite !optional_id. by destruct obj.
Qed.

Lemma apply_identity_iff obj s :
  apply identity_func obj = Ok s ↔ s = obj ∧ well_formed obj.
Proof.
  unfold apply, well_formed. rewrite init_sorted_hint_iff.
  cbn [identity_func on_index on_value on_long]. rewrite !optional_id.
  by destruct obj.
Qed.

End transform_proofs.

(** X25.  [apply] returns exactly when the instance that [apply_] makes
    in place passes the checks of the constructor, and then it returns
    that instance: the two differ in the checks and in nothing else. *)
Theorem apply_returns_iff {V : Type} (func : tensor_func V) (obj s : SparseStorage V) :
  apply func obj = Ok s ↔ s = apply_ func obj ∧ well_formed (apply_ func obj).
Proof.
  unfold apply, well_formed. rewrite init_sorted_hint_iff, apply__unfold. done.
Qed.

(** X26.  [apply_] does not change which arrays are materialized, nor
    the sparse size, whatever the function does to the tensors. *)
Theorem apply__keeps_cached_keys {V : Type} (func : tensor_func V) (obj : SparseStorage V) :
  cached_keys (apply_ func obj) = cached_keys obj
  ∧ _sparse_size (apply_ func obj) = _sparse_size obj
  ∧ (is_Some (_value (apply_ func obj)) ↔ is_Some (_value obj)).
Proof.
  rewrite apply__unfold.
  destruct obj as [index value size rc rp cc cp p q].
  split_and!; [|done|].
  - destruct rc, rp, cc, cp, p, q; reflexivity.
  - destruct value; cbn; split; intros [? ?]; by eauto.
Qed.

(** X27.  [apply_value] returns exactly when the instance that
    [apply_value_] makes in place passes the checks of the constructor,
    and then it returns that instance. *)
Theorem apply_value_returns_iff {V : Type} (func : list V → list V)
    (obj s : SparseStorage V) :
  apply_value func obj = Ok s
  ↔ s = apply_value_ func obj ∧ well_formed (apply_value_ func obj).
Proof.
  unfold apply_value, well_formed. by rewrite init_sorted_hint_iff.
Qed.

(** X28.  A copy is the instance itself, attribute by attribute, and it
    is made exactly when the instance passes the checks of the
    constructor; otherwise [__copy__] raises [AssertionError]. *)
Theorem copy_returns_iff {V : Type} (obj : SparseStorage V) :
  (__copy__ obj = Ok obj ↔ well_formed obj)
  ∧ (∀ s, __copy__ obj = Ok s → s = obj)
  ∧ (∀ e, __copy__ obj = Raise e → e = AssertionError).
Proof.
  unfold __copy__. split_and!.
  - rewrite apply_identity_iff. split; [by intros [_ H] | done].
  - intros s Hs. by apply apply_identity_iff in Hs as [-> _].
  - intros e. unfold apply. apply init_sorted_hint_raises.
Qed.

(** X29.  When [__deepcopy__] returns, the new storage has the contents
    of the instance, it is what [memo] holds for the identity of the
    instance, and the other entries of [memo] are as they were. *)
Theorem deepcopy_records_copy {V : Type} (id_self : nat) (obj s : SparseStorage V)
    (memo memo' : gmap nat (SparseStorage V)) :
  __deepcopy__ id_self obj memo = Ok (s, memo') →
  s = obj ∧ memo' !! id_self = Some obj
  ∧ ∀ j, j ≠ id_self → memo' !! j = memo !! j.
Proof.
  unfold __deepcopy__, clone. intros H.
  apply bind_Ok in H as (s' & Hs' & H).
  apply Ok_inj in H. apply pair_equal_spec in H as [-> <-].
  apply apply_identity_iff in Hs' as [-> _].
  split_and!; [done | by rewrite lookup_insert_eq |].
  intros j Hj. by rewrite lookup_insert_ne.
Qed.

Lemma deepcopy_records_copy_witness :
  three_entries = three_entries
  ∧ (<[7%nat := three_entries]> (∅ : gmap nat (SparseStorage Z))) !! 7%nat = Some three_entries
  ∧ ∀ j, j ≠ 7%nat →
      (<[7%nat := three_entries]> (∅ : gmap nat (SparseStorage Z))) !! j
      = (∅ : gmap nat (SparseStorage Z)) !! j.
Proof.
  apply (deepcopy_records_copy 7 three_entries three_entries ∅ (<[7%nat := three_entries]> ∅)).
  reflexivity.
Defined.

(** X30.  [map] applies the function to the tensors the instance holds
    and to nothing else: to the coordinates, to the values when there are
    values, and to each materialized array in the order of [cache_keys];
    the length of its result is one, plus one for the values, plus the
    number of cached keys. *)
Theorem map_visits_materialized {V R : Type} (on_index : list (Z * Z) → R)
    (on_value : list V → R) (on_long : list Z → R) (obj : SparseStorage V) :
  map on_index on_value on_long obj
  = [on_index (_index obj)] ++ (on_value <$> option_list (_value obj))
    ++ (on_long <$> omap (λ key, getattr key obj) cache_keys)
  ∧ length (map on_index on_value on_long obj)
    = (1 + (if has_value obj then 1 else 0) + length (cached_keys obj))%nat.
Proof.
  destruct obj as [index value size rc rp cc cp p q].
  split.
  - destruct value, rc, rp, cc, cp, p, q; reflexivity.
  - destruct value, rc, rp, cc, cp, p, q; reflexivity.
Qed.
